(** * blockchain-go: a shallow embedding of [blockchain.go] and its properties

    The Go program keeps a hash-linked chain of blocks and a pool of pending
    transactions (the mempool), mines a nonce by brute force and commits the
    pool into a new block.  This development embeds the program in Rocq:

    - Go's [int] and [int64] are 64-bit two's complement integers, modelled
      as [Z] with the wrap-around written out ([GoInt.wrap64]);
    - Go strings are byte strings, modelled as [string];
    - [float64] is modelled by its IEEE-754 bit pattern, and the [%f] verb
      by exact integer arithmetic on the decoded mantissa and exponent;
    - [crypto/sha256] and [encoding/hex] are implemented in full, so that
      hashes can be evaluated;
    - [[]Transaction] slices are headers (pointer, length, capacity) into a
      store of backing arrays, so that sharing between the pool and the
      committed blocks is explicit;
    - the methods on [*Blockchain] pass the program state explicitly;
      [time.Now().Unix()] is an input of the operations that read the clock. *)

From Stdlib Require Import ZArith List String Ascii Bool Arith Lia.
From Stdlib Require Import DecimalString DecimalZ DecimalPos.
From stdpp Require Import base list.
Import ListNotations.

Local Open Scope string_scope.
Local Open Scope list_scope.
Local Open Scope Z_scope.

(* ===================================================================== *)
(** * Part I: definitions *)
(* ===================================================================== *)

(** ** Machine integers *)

Module GoInt.

(** [int] and [int64] hold the integers of [min_int .. max_int];
    arithmetic wraps around. *)
Definition min_int : Z := - 2 ^ 63.
Definition max_int : Z := 2 ^ 63 - 1.

Definition in_range (z : Z) : Prop := min_int <= z <= max_int.

Definition wrap64 (z : Z) : Z := (z + 2 ^ 63) mod 2 ^ 64 - 2 ^ 63.

(** [x + 1] and [x++] on an [int]. *)
Definition incr (z : Z) : Z := wrap64 (z + 1).

End GoInt.

(** ** Byte strings *)

Module Bytes.

(** [[]byte(s)]: the bytes of a string, each as a number below 256. *)
Definition of_string (s : string) : list Z :=
  map (fun c => Z.of_N (N_of_ascii c)) (list_ascii_of_string s).

(** [s[:n]]: the prefix of length [n]; out of range is a run-time panic. *)
Definition prefix (n : nat) (s : string) : option string :=
  if (n <=? String.length s)%nat then Some (substring 0 n s) else None.

End Bytes.

(** ** crypto/sha256 *)

Module Sha256.

Definition u32 (z : Z) : Z := Z.land z 0xffffffff.

(** [bits.RotateLeft32(x, -n)] on a 32-bit word. *)
Definition rotr (n x : Z) : Z :=
  u32 (Z.lor (Z.shiftr x n) (Z.shiftl x (32 - n))).

Definition add32 (x y : Z) : Z := u32 (x + y).

(** [^x] on a [uint32]. *)
Definition not32 (x : Z) : Z := Z.lxor x 0xffffffff.

(** The round constants and the initial chaining words are the first 32
    bits of the fractional parts of the cube roots of the first 64 primes
    and of the square roots of the first 8 (FIPS 180-4, 4.2.2 and 5.3.3). *)
Definition is_prime (n : nat) : bool :=
  (2 <=? n)%nat &&
  forallb (fun d => negb (n mod d =? 0)%nat) (seq 2 (n - 2)).

Definition primes : list nat := filter is_prime (seq 2 310).

(** The largest [r + x] with [x < 2^bits] and [(r + x)^3 <= n]. *)
Fixpoint cube_root (bits : nat) (n r : Z) : Z :=
  match bits with
  | O => r
  | S bits' =>
      let c := r + 2 ^ Z.of_nat bits' in
      if c * c * c <=? n then cube_root bits' n c else cube_root bits' n r
  end.

Definition frac_cbrt (p : nat) : Z := u32 (cube_root 36 (Z.of_nat p * 2 ^ 96) 0).

Definition frac_sqrt (p : nat) : Z := u32 (Z.sqrt (Z.of_nat p * 2 ^ 64)).

Definition _K : list Z := Eval vm_compute in map frac_cbrt primes.

(** The eight chaining words [h[0..7]] of a digest. *)
Record regs : Type := Regs {
  ra : Z; rb : Z; rc : Z; rd : Z; re : Z; rf : Z; rg : Z; rh : Z
}.

Definition init : regs :=
  Eval vm_compute in
    Regs (frac_sqrt 2) (frac_sqrt 3) (frac_sqrt 5) (frac_sqrt 7)
         (frac_sqrt 11) (frac_sqrt 13) (frac_sqrt 17) (frac_sqrt 19).

(** [w[i] = p[j]<<24 | p[j+1]<<16 | p[j+2]<<8 | p[j+3]] for the sixteen
    words of a 64-byte chunk. *)
Fixpoint be_words (p : list Z) : list Z :=
  match p with
  | b0 :: b1 :: b2 :: b3 :: p' =>
      Z.lor (Z.lor (Z.lor (Z.shiftl b0 24) (Z.shiftl b1 16)) (Z.shiftl b2 8)) b3
      :: be_words p'
  | _ => []
  end.

(** The next word of the message schedule from the window of the last
    sixteen: [w[i] = t1 + w[i-7] + t2 + w[i-16]]. *)
Definition next_w (win : list Z) : Z :=
  let v1 := nth 14 win 0 in
  let t1 := Z.lxor (Z.lxor (rotr 17 v1) (rotr 19 v1)) (Z.shiftr v1 10) in
  let v2 := nth 1 win 0 in
  let t2 := Z.lxor (Z.lxor (rotr 7 v2) (rotr 18 v2)) (Z.shiftr v2 3) in
  add32 (add32 (add32 t1 (nth 9 win 0)) t2) (nth 0 win 0).

(** The first [n] words of the schedule that starts with window [win]. *)
Fixpoint schedule (n : nat) (win : list Z) : list Z :=
  match n with
  | O => []
  | S n' =>
      match win with
      | [] => []
      | w0 :: rest => w0 :: schedule n' (rest ++ [next_w win])
      end
  end.

(** One round of the compression loop. *)
Definition round (r : regs) (kw : Z * Z) : regs :=
  let '(Regs a b c d e f g h) := r in
  let t1 :=
    add32 (add32 (add32 (add32 h
      (Z.lxor (Z.lxor (rotr 6 e) (rotr 11 e)) (rotr 25 e)))
      (Z.lxor (Z.land e f) (Z.land (not32 e) g)))
      (fst kw)) (snd kw) in
  let t2 :=
    add32 (Z.lxor (Z.lxor (rotr 2 a) (rotr 13 a)) (rotr 22 a))
          (Z.lxor (Z.lxor (Z.land a b) (Z.land a c)) (Z.land b c)) in
  Regs (add32 t1 t2) a b c (add32 d t1) e f g.

(** [blockGeneric] on one 64-byte chunk. *)
Definition block (hs : regs) (p : list Z) : regs :=
  let w := schedule 64 (be_words p) in
  let '(Regs a b c d e f g h) := fold_left round (combine _K w) hs in
  Regs (add32 (ra hs) a) (add32 (rb hs) b) (add32 (rc hs) c) (add32 (rd hs) d)
       (add32 (re hs) e) (add32 (rf hs) f) (add32 (rg hs) g) (add32 (rh hs) h).

(** The running digest: chaining words, the buffered bytes of the current
    chunk (most recent first) and their number. *)
Record digest : Type := Digest { dh : regs; dx : list Z; dnx : nat }.

Definition write_byte (d : digest) (b : Z) : digest :=
  if (S (dnx d) =? 64)%nat
  then Digest (block (dh d) (rev (b :: dx d))) [] 0
  else Digest (dh d) (b :: dx d) (S (dnx d)).

Definition Write (d : digest) (p : list Z) : digest := fold_left write_byte p d.

(** Big-endian bytes of a [uint64] and of a [uint32]. *)
Definition byte_at (z : Z) (sh : Z) : Z := Z.land (Z.shiftr z sh) 0xff.

Definition be_uint64 (z : Z) : list Z :=
  map (byte_at z) [56; 48; 40; 32; 24; 16; 8; 0].

Definition be_uint32 (z : Z) : list Z :=
  map (byte_at z) [24; 16; 8; 0].

(** [checkSum]: pad with 0x80 and zeros up to 56 mod 64, then the length
    in bits as a [uint64]. *)
Definition checkSum (len : nat) (d : digest) : list Z :=
  let t := (Z.of_nat len mod 64)%Z in
  let npad := if t <? 56 then 56 - t else 64 + 56 - t in
  let pad := 0x80 :: repeat 0 (Z.to_nat npad - 1) in
  let bits := Z.land (Z.shiftl (Z.of_nat len) 3) (2 ^ 64 - 1) in
  let d := Write (Write d pad) (be_uint64 bits) in
  let '(Regs a b c d0 e f g h) := dh d in
  be_uint32 a ++ be_uint32 b ++ be_uint32 c ++ be_uint32 d0 ++
  be_uint32 e ++ be_uint32 f ++ be_uint32 g ++ be_uint32 h.

(** [sha256.Sum256(data)]. *)
Definition Sum256 (data : list Z) : list Z :=
  checkSum (List.length data) (Write (Digest init [] 0) data).

End Sha256.

(** ** encoding/hex *)

Module Hex.

Definition hextable : string := "0123456789abcdef".

Definition digit (i : Z) : ascii :=
  match String.get (Z.to_nat i) hextable with
  | Some c => c
  | None => "?"%char
  end.

(** [hex.EncodeToString]: [hextable[v>>4]] then [hextable[v&0x0f]] for
    each byte. *)
Fixpoint EncodeToString (src : list Z) : string :=
  match src with
  | [] => EmptyString
  | v :: rest =>
      String (digit (Z.shiftr v 4)) (String (digit (Z.land v 0x0f)) (EncodeToString rest))
  end.

End Hex.

(** ** fmt: the verbs [%d], [%s] and [%f] *)

Module Float64.

(** A [float64] is its IEEE-754 binary64 bit pattern
    ([math.Float64bits]): sign bit 63, biased exponent in bits 52..62,
    fraction in bits 0..51.  Only the low 64 bits of the [Z] are read. *)
Definition float64 : Type := Z.

Definition sign (x : float64) : bool := Z.testbit x 63.
Definition expo (x : float64) : Z := Z.land (Z.shiftr x 52) 0x7ff.
Definition frac (x : float64) : Z := Z.land x 0xfffffffffffff.

Inductive class : Type :=
| NaN
| Inf (neg : bool)
| Fin (neg : bool) (mant : Z) (exp : Z).  (* (-1)^neg * mant * 2^exp *)

Definition decode (x : float64) : class :=
  if expo x =? 0x7ff then (if frac x =? 0 then Inf (sign x) else NaN)
  else if expo x =? 0 then Fin (sign x) (frac x) (-1074)
  else Fin (sign x) (frac x + 2 ^ 52) (expo x - 1075).

(** The integer nearest to [n / d], ties to even ([0 <= n], [0 < d]). *)
Definition round_half_even (n d : Z) : Z :=
  let q := n / d in
  let r := n mod d in
  if 2 * r <? d then q
  else if d <? 2 * r then q + 1
  else if Z.even q then q else q + 1.

(** [mant * 2^exp] in millionths, rounded to the nearest integer. *)
Definition millionths (mant exp : Z) : Z :=
  if 0 <=? exp then mant * 10 ^ 6 * 2 ^ exp
  else round_half_even (mant * 10 ^ 6) (2 ^ (- exp)).

(** The [float64] nearest to the rational [n / d] ([0 <= n], [0 < d]),
    ties to even: the value of an untyped constant converted to
    [float64].  Constants beyond the largest finite value are rejected by
    the compiler; here they yield +Inf. *)
Definition of_ratio (n d : Z) : float64 :=
  if n <=? 0 then 0 else
  let p2 k := 2 ^ Z.max 0 k in
  let l := Z.log2 n - Z.log2 d in
  let l := if n * p2 (- l) <? d * p2 l then l - 1 else l in
  let e := Z.max (l - 52) (-1074) in
  let m := round_half_even (n * p2 (- e)) (d * p2 e) in
  let '(m, e) := if m =? 2 ^ 53 then (2 ^ 52, e + 1) else (m, e) in
  if 971 <? e then Z.shiftl 0x7ff 52
  else if m <? 2 ^ 52 then m
  else Z.lor (Z.shiftl (e + 1075) 52) (m - 2 ^ 52).

(** The decimal literal with digits [digits] and [scale] digits after the
    point: [lit 50 0] is [50], [lit 500 1] is [50.0]. *)
Definition lit (digits : Z) (scale : nat) : float64 :=
  of_ratio digits (10 ^ Z.of_nat scale).

End Float64.

Module Fmt.

(** [%d] of an integer. *)
Definition Sprintf_d (z : Z) : string := NilEmpty.string_of_int (Z.to_int z).

Definition digit_char (d : Z) : ascii := ascii_of_nat (48 + Z.to_nat d).

(** The six digits after the decimal point. *)
Definition frac_digits (r : Z) : string :=
  string_of_list_ascii
    (map (fun k => digit_char ((r / 10 ^ k) mod 10)) [5; 4; 3; 2; 1; 0]).

(** [%f] of a [float64]: fixed point with six digits after the point,
    rounded to nearest, ties to even, on the exact binary value. *)
Definition Sprintf_f (x : Float64.float64) : string :=
  match Float64.decode x with
  | Float64.NaN => "NaN"
  | Float64.Inf neg => if neg then "-Inf" else "+Inf"
  | Float64.Fin neg mant exp =>
      let q := Float64.millionths mant exp in
      ((if neg then "-" else "") ++ Sprintf_d (q / 10 ^ 6) ++ "." ++
       frac_digits (q mod 10 ^ 6))%string
  end.

End Fmt.

(** ** The data model of [blockchain.go] *)

(** [type Transaction struct]. *)
Record Transaction : Type := mkTransaction {
  Sender : string;
  Recipient : string;
  Amount : Float64.float64;
  TXID : string
}.

(** The zero value of [Transaction], which fills fresh backing arrays. *)
Definition zeroTransaction : Transaction := mkTransaction "" "" 0 "".

(** A [[]Transaction] value: pointer to the backing array, length and
    capacity.  Assigning a slice copies this header, not the array. *)
Record slice : Type := mkSlice { ptr : nat; len : nat; cap : nat }.

(** The backing arrays of all [[]Transaction] slices, by address.  Address
    0 is the array of size zero that every empty slice literal points to. *)
Abbreviation store := (list (list Transaction)).

(** [type Block struct]. *)
Record Block : Type := mkBlock {
  Index : Z;
  Timestamp : Z;
  Transactions : slice;
  Nonce : Z;
  PreviousHash : string;
  Hash : string
}.

(** [type Blockchain struct].  The field [Transactions] of the source (the
    mempool) is [Mempool] here, the name being taken by [Block]; [Chain] is
    held by the one [*Blockchain] only and is modelled by its elements. *)
Record Blockchain : Type := mkBlockchain {
  Chain : list Block;
  Mempool : slice
}.

(** The program state: the backing arrays and the [Blockchain] that [bc]
    points to. *)
Record state : Type := mkState { mem : store; bc : Blockchain }.

(** The result of a call that may panic or run forever. *)
Inductive outcome (A : Type) : Type :=
| Return (a : A)
| Panic
| OutOfFuel.
Arguments Return {A} a.
Arguments Panic {A}.
Arguments OutOfFuel {A}.

(** ** Slices *)

(** The elements [s[0], ..., s[len(s)-1]]. *)
Definition elems (m : store) (s : slice) : list Transaction :=
  take (len s) (default [] (m !! ptr s)).

(** [[]Transaction{}]. *)
Definition empty_slice : slice := mkSlice 0 0 0.

Section Program.

(** The capacity that [append] grants beyond the length it needs when it
    has to allocate, from the old capacity and the needed length.  It is
    the run time's business (size classes, doubling); nothing below depends
    on it. *)
Variable spare : nat -> nat -> nat.

(** [append(s, x)]: in place when the capacity allows, into a fresh array
    otherwise. *)
Definition append (m : store) (s : slice) (x : Transaction) : store * slice :=
  if (len s <? cap s)%nat then
    (alter (fun arr => <[len s := x]> arr) (ptr s) m,
     mkSlice (ptr s) (S (len s)) (cap s))
  else
    let extra := spare (cap s) (S (len s)) in
    (m ++ [elems m s ++ x :: replicate extra zeroTransaction],
     mkSlice (length m) (S (len s)) (S (len s) + extra)).

(** ** The operations *)

(** [func generateTransactionID(tx Transaction) string]. *)
Definition generateTransactionID (tx : Transaction) : string :=
  let data := (Sender tx ++ Recipient tx ++ Fmt.Sprintf_f (Amount tx))%string in
  let hash := Sha256.Sum256 (Bytes.of_string data) in
  Hex.EncodeToString hash.

(** [func calculateHash(block Block) string]. *)
Definition calculateHash (m : store) (block : Block) : string :=
  let hashInput :=
    (Fmt.Sprintf_d (Index block) ++ Fmt.Sprintf_d (Timestamp block) ++
     Fmt.Sprintf_d (Nonce block) ++ PreviousHash block ++
     Fmt.Sprintf_d (Z.of_nat (len (Transactions block))))%string in
  let hashInput :=
    fold_left
      (fun hashInput tx =>
         (hashInput ++ (Sender tx ++ Recipient tx ++ Fmt.Sprintf_f (Amount tx)))%string)
      (elems m (Transactions block)) hashInput in
  let hash := Sha256.Sum256 (Bytes.of_string hashInput) in
  Hex.EncodeToString hash.

(** [func (bc *Blockchain) createGenesisBlock()]; [now] is
    [time.Now().Unix()]. *)
Definition createGenesisBlock (now : Z) (st : state) : state :=
  let genesisBlock := mkBlock 0 now empty_slice 100 "0" "" in
  let genesisBlock :=
    mkBlock (Index genesisBlock) (Timestamp genesisBlock)
            (Transactions genesisBlock) (Nonce genesisBlock)
            (PreviousHash genesisBlock) (calculateHash (mem st) genesisBlock) in
  mkState (mem st)
          (mkBlockchain (Chain (bc st) ++ [genesisBlock]) (Mempool (bc st))).

(** [func createBlockchain() *Blockchain], in a fresh program. *)
Definition createBlockchain (now : Z) : state :=
  let st := mkState [[]] (mkBlockchain [] empty_slice) in
  createGenesisBlock now st.

(** [func (bc *Blockchain) addBlock(nonce int, timestamp int64,
    previousHash string)]. *)
Definition addBlock (nonce timestamp : Z) (previousHash : string)
    (st : state) : state :=
  let newBlock :=
    mkBlock (Z.of_nat (length (Chain (bc st)))) timestamp (Mempool (bc st))
            nonce previousHash "" in
  let newBlock :=
    mkBlock (Index newBlock) (Timestamp newBlock) (Transactions newBlock)
            (Nonce newBlock) (PreviousHash newBlock)
            (calculateHash (mem st) newBlock) in
  mkState (mem st) (mkBlockchain (Chain (bc st) ++ [newBlock]) empty_slice).

(** [func (bc *Blockchain) addTransaction(sender, recipient string,
    amount float64) string]. *)
Definition addTransaction (sender recipient : string)
    (amount : Float64.float64) (st : state) : string * state :=
  let tx := mkTransaction sender recipient amount "" in
  let tx :=
    mkTransaction (Sender tx) (Recipient tx) (Amount tx)
                  (generateTransactionID tx) in
  let '(m, s) := append (mem st) (Mempool (bc st)) tx in
  (TXID tx, mkState m (mkBlockchain (Chain (bc st)) s)).

(** [func isProofValid(lastBlock Block, nonce int, transactions
    []Transaction, candidateTimestamp int64) bool]; [None] is the panic of
    [guessHash[:4]] out of range. *)
Definition isProofValid (m : store) (lastBlock : Block) (nonce : Z)
    (transactions : slice) (candidateTimestamp : Z) : option bool :=
  let tempBlock :=
    mkBlock (GoInt.incr (Index lastBlock)) candidateTimestamp transactions
            nonce (Hash lastBlock) "" in
  let guessHash := calculateHash m tempBlock in
  match Bytes.prefix 4 guessHash with
  | Some p => Some (String.eqb p "0000")
  | None => None
  end.

(** The loop of [proofOfWork], from [nonce], for at most [fuel] tests. *)
Fixpoint search (m : store) (lastBlock : Block) (transactions : slice)
    (candidateTimestamp : Z) (fuel : nat) (nonce : Z) : outcome Z :=
  match fuel with
  | O => OutOfFuel
  | S fuel' =>
      match isProofValid m lastBlock nonce transactions candidateTimestamp with
      | None => Panic
      | Some true => Return nonce
      | Some false =>
          search m lastBlock transactions candidateTimestamp fuel'
                 (GoInt.incr nonce)
      end
  end.

(** [func (bc *Blockchain) proofOfWork() (int, int64)]; [now] is
    [time.Now().Unix()].  The state is only read. *)
Definition proofOfWork (fuel : nat) (now : Z) (st : state) : outcome (Z * Z) :=
  match last (Chain (bc st)) with
  | None => Panic
  | Some lastBlock =>
      let candidateTimestamp := now in
      match search (mem st) lastBlock (Mempool (bc st)) candidateTimestamp fuel 0 with
      | Return nonce => Return (nonce, candidateTimestamp)
      | Panic => Panic
      | OutOfFuel => OutOfFuel
      end
  end.

(** [func main()], the printing left out: [t0] and [t1] are the two
    readings of the clock. *)
Definition main (fuel : nat) (t0 t1 : Z) : outcome state :=
  let st := createBlockchain t0 in
  let st := snd (addTransaction "Alice" "Bob" (Float64.lit 50 0) st) in
  let st := snd (addTransaction "Bob" "Charlie" (Float64.lit 25 0) st) in
  match proofOfWork fuel t1 st with
  | Return (nonce, candidateTimestamp) =>
      match last (Chain (bc st)) with
      | Some tip => Return (addBlock nonce candidateTimestamp (Hash tip) st)
      | None => Panic
      end
  | Panic => Panic
  | OutOfFuel => OutOfFuel
  end.

End Program.

(** ** Vocabulary of the properties *)

(** The string that [calculateHash] builds and hashes, in closed form. *)
Definition tx_string (tx : Transaction) : string :=
  (Sender tx ++ Recipient tx ++ Fmt.Sprintf_f (Amount tx))%string.

Fixpoint txs_string (l : list Transaction) : string :=
  match l with
  | [] => ""
  | tx :: l' => (tx_string tx ++ txs_string l')%string
  end.

Definition hashInput (m : store) (block : Block) : string :=
  (Fmt.Sprintf_d (Index block) ++ Fmt.Sprintf_d (Timestamp block) ++
   Fmt.Sprintf_d (Nonce block) ++ PreviousHash block ++
   Fmt.Sprintf_d (Z.of_nat (len (Transactions block))) ++
   txs_string (elems m (Transactions block)))%string.

(** A byte, and a character of [hextable]. *)
Definition is_byte (b : Z) : Prop := 0 <= b < 256.

Definition lower_hex (c : ascii) : Prop :=
  In c (list_ascii_of_string Hex.hextable).

(** The candidate block that [isProofValid] hashes. *)
Definition candidate (lastBlock : Block) (nonce : Z) (transactions : slice)
    (candidateTimestamp : Z) : Block :=
  mkBlock (GoInt.incr (Index lastBlock)) candidateTimestamp transactions nonce
          (Hash lastBlock) "".

(** A slice header fits the store: the length is within the capacity, and a
    slice with room points to an array of its capacity. *)
Definition wf_slice (m : store) (s : slice) : bool :=
  (len s <=? cap s)%nat &&
  ((cap s =? 0)%nat ||
   match m !! ptr s with
   | Some arr => (length arr =? cap s)%nat
   | None => false
   end).

(** Every slice of the state fits its store. *)
Definition wf_state (st : state) : bool :=
  wf_slice (mem st) (Mempool (bc st)) &&
  forallb (fun b => wf_slice (mem st) (Transactions b)) (Chain (bc st)).

(** The calls a client makes on a chain, in the flow of [main]: a commit
    passes the hash of the current tip, [bc.Chain[len(bc.Chain)-1].Hash]. *)
Inductive op : Type :=
| AppendTransaction (sender recipient : string) (amount : Float64.float64)
| ProofOfWork (fuel : nat) (now : Z)
| CommitBlock (nonce timestamp : Z).

Section Runs.

Variable spare : nat -> nat -> nat.

Definition step (o : op) (st : state) : outcome state :=
  match o with
  | AppendTransaction sender recipient amount =>
      Return (snd (addTransaction spare sender recipient amount st))
  | ProofOfWork fuel now =>
      match proofOfWork fuel now st with
      | Return _ => Return st
      | Panic => Panic
      | OutOfFuel => OutOfFuel
      end
  | CommitBlock nonce timestamp =>
      match last (Chain (bc st)) with
      | Some tip => Return (addBlock nonce timestamp (Hash tip) st)
      | None => Panic
      end
  end.

Fixpoint run (ops : list op) (st : state) : outcome state :=
  match ops with
  | [] => Return st
  | o :: ops' =>
      match step o st with
      | Return st' => run ops' st'
      | Panic => Panic
      | OutOfFuel => OutOfFuel
      end
  end.

(** The pool after a series of submissions. *)
Definition addTransactions (txs : list (string * string * Float64.float64))
    (st : state) : state :=
  fold_left (fun st tx => snd (addTransaction spare tx.1.1 tx.1.2 tx.2 st)) txs st.

End Runs.

(** The chain is linked: it is not empty, the block at position [i] has
    index [i], and each block after the first carries the stored hash of
    its predecessor. *)
Definition chain_linked (c : list Block) : Prop :=
  c <> [] /\
  (forall i b, c !! i = Some b -> Index b = Z.of_nat i) /\
  (forall i p b, c !! i = Some p -> c !! S i = Some b -> PreviousHash b = Hash p).

(** Two byte strings with one digest. *)
Definition sha256_collision (x y : string) : Prop :=
  x <> y /\ Sha256.Sum256 (Bytes.of_string x) = Sha256.Sum256 (Bytes.of_string y).

(** Block [b'] read in [m'] is block [b] read in [m] with one field changed:
    the nonce, the timestamp, or the sender or the amount of one
    transaction.  [changed] says when two amounts count as different. *)
Definition same_frame (b b' : Block) : Prop :=
  Index b' = Index b /\ PreviousHash b' = PreviousHash b /\
  len (Transactions b') = len (Transactions b).

Inductive tampered (changed : Float64.float64 -> Float64.float64 -> Prop)
    (m : store) (b : Block) (m' : store) (b' : Block) : Prop :=
| tamper_nonce :
    same_frame b b' -> Timestamp b' = Timestamp b ->
    elems m' (Transactions b') = elems m (Transactions b) ->
    Nonce b' <> Nonce b ->
    tampered changed m b m' b'
| tamper_timestamp :
    same_frame b b' -> Nonce b' = Nonce b ->
    elems m' (Transactions b') = elems m (Transactions b) ->
    Timestamp b' <> Timestamp b ->
    tampered changed m b m' b'
| tamper_sender (l1 l2 : list Transaction) (t t' : Transaction) :
    same_frame b b' -> Nonce b' = Nonce b -> Timestamp b' = Timestamp b ->
    elems m (Transactions b) = l1 ++ t :: l2 ->
    elems m' (Transactions b') = l1 ++ t' :: l2 ->
    Recipient t' = Recipient t -> Amount t' = Amount t ->
    Sender t' <> Sender t ->
    tampered changed m b m' b'
| tamper_amount (l1 l2 : list Transaction) (t t' : Transaction) :
    same_frame b b' -> Nonce b' = Nonce b -> Timestamp b' = Timestamp b ->
    elems m (Transactions b) = l1 ++ t :: l2 ->
    elems m' (Transactions b') = l1 ++ t' :: l2 ->
    Sender t' = Sender t -> Recipient t' = Recipient t ->
    changed (Amount t) (Amount t') ->
    tampered changed m b m' b'.

(** No committed block shares a backing array that the pool can still
    write to. *)
Definition separated (st : state) : Prop :=
  Forall (fun b => cap (Transactions b) = 0%nat \/ cap (Mempool (bc st)) = 0%nat \/
                   ptr (Transactions b) <> ptr (Mempool (bc st)))
         (Chain (bc st)).

(** ** A run of the program

    The growth of [append] that doubles the capacity, and the state of
    [main] before it mines, with the clock at 1700000000. *)
Definition doubling (c n : nat) : nat := (Nat.max n (2 * c) - n)%nat.

Definition example_pool : state :=
  let st := createBlockchain 1700000000 in
  let st := snd (addTransaction doubling "Alice" "Bob" (Float64.lit 50 0) st) in
  snd (addTransaction doubling "Bob" "Charlie" (Float64.lit 25 0) st).

(** The same submissions where [append] grants two spare elements: the
    pool sits at another address with another capacity. *)
Definition example_pool_slack : state :=
  let st := createBlockchain 1700000000 in
  let st := snd (addTransaction (fun _ _ => 2%nat) "Alice" "Bob" (Float64.lit 50 0) st) in
  snd (addTransaction (fun _ _ => 2%nat) "Bob" "Charlie" (Float64.lit 25 0) st).

(** The calls of [main] after the creation, mining at 1700030657 with fuel
    for three tests, and the state they lead to. *)
Definition example_ops : list op :=
  [ AppendTransaction "Alice" "Bob" (Float64.lit 50 0);
    AppendTransaction "Bob" "Charlie" (Float64.lit 25 0);
    ProofOfWork 3 1700030657;
    CommitBlock 2 1700030657 ].

Definition example_chain : state :=
  addBlock 2 1700030657
    "ec5037b366f9a281ef05d40e7e0554b070b85043a9a52505c0258ce165623594"
    example_pool.

(** The genesis block of that run, and its second block. *)
Definition example_genesis : Block :=
  mkBlock 0 1700000000 empty_slice 100 "0"
    "ec5037b366f9a281ef05d40e7e0554b070b85043a9a52505c0258ce165623594".

Definition example_block : Block :=
  mkBlock 1 1700030657 (mkSlice 2 2 2) 2
    "ec5037b366f9a281ef05d40e7e0554b070b85043a9a52505c0258ce165623594"
    "0000d731b377a63a0645d0b93152229296884dc14969669b704a68f7c2881ceb".

(** The store of [example_chain] after the amount of the first committed
    transaction has been overwritten with [amount]. *)
Definition overwrite_amount (amount : Float64.float64) : store :=
  alter (fun arr =>
           <[0%nat := mkTransaction "Alice" "Bob" amount
                "a0adb2d68e7bf21bb88ab405a62f6b76902d2f23f917a2d552f83c0f33dae777"]> arr)
        2%nat (mem example_chain).

(** The [float64] that follows 50: 50.000000000000007105... *)
Definition next_after_50 : Float64.float64 := 0x4049000000000001.

(** ** Vocabulary of the further properties *)

(** The transaction that [addTransaction] stores for a submission. *)
Definition submitted (tx : string * string * Float64.float64) : Transaction :=
  mkTransaction tx.1.1 tx.1.2 tx.2
    (generateTransactionID (mkTransaction tx.1.1 tx.1.2 tx.2 "")).

(** The number of commits among the calls of a run. *)
Fixpoint commits (ops : list op) : nat :=
  match ops with
  | [] => 0%nat
  | CommitBlock _ _ :: ops' => S (commits ops')
  | _ :: ops' => commits ops'
  end.

(** The fields of a transaction that [calculateHash] reads. *)
Definition hashed_fields (tx : Transaction) : string * string * Float64.float64 :=
  (Sender tx, Recipient tx, Amount tx).

(** Block [b'] read in [m'] is block [b] read in [m] with one of the other
    hashed fields changed: the index, the previous hash, or the recipient of
    one transaction. *)
Inductive rewritten (m : store) (b : Block) (m' : store) (b' : Block) : Prop :=
| rewrite_index :
    Timestamp b' = Timestamp b -> Nonce b' = Nonce b ->
    PreviousHash b' = PreviousHash b ->
    len (Transactions b') = len (Transactions b) ->
    elems m' (Transactions b') = elems m (Transactions b) ->
    Index b' <> Index b ->
    rewritten m b m' b'
| rewrite_previous :
    Index b' = Index b -> Timestamp b' = Timestamp b -> Nonce b' = Nonce b ->
    len (Transactions b') = len (Transactions b) ->
    elems m' (Transactions b') = elems m (Transactions b) ->
    PreviousHash b' <> PreviousHash b ->
    rewritten m b m' b'
| rewrite_recipient (l1 l2 : list Transaction) (t t' : Transaction) :
    same_frame b b' -> Nonce b' = Nonce b -> Timestamp b' = Timestamp b ->
    elems m (Transactions b) = l1 ++ t :: l2 ->
    elems m' (Transactions b') = l1 ++ t' :: l2 ->
    Sender t' = Sender t -> Amount t' = Amount t ->
    Recipient t' <> Recipient t ->
    rewritten m b m' b'.

(** The store of [example_chain] after the stored id of the first committed
    transaction has been overwritten. *)
Definition overwrite_txid (id : string) : store :=
  alter (fun arr =>
           <[0%nat := mkTransaction "Alice" "Bob" (Float64.lit 50 0) id]> arr)
        2%nat (mem example_chain).

(* ===================================================================== *)
(** * Part II: properties *)
(* ===================================================================== *)

(** ** Strings *)

Section Strings.

Lemma append_nil_r (s : string) : (s ++ "")%string = s.
Proof. induction s as [|c s IH]; simpl; [reflexivity | now rewrite IH]. Qed.

Lemma append_assoc (a b c : string) :
  ((a ++ b) ++ c)%string = (a ++ (b ++ c))%string.
Proof. induction a as [|x a IH]; simpl; [reflexivity | now rewrite IH]. Qed.

Lemma length_append (a b : string) :
  String.length (a ++ b) = (String.length a + String.length b)%nat.
Proof. induction a as [|x a IH]; simpl; [reflexivity | now rewrite IH]. Qed.

Lemma list_ascii_of_append (a b : string) :
  list_ascii_of_string (a ++ b) =
  list_ascii_of_string a ++ list_ascii_of_string b.
Proof. induction a as [|x a IH]; simpl; [reflexivity | now rewrite IH]. Qed.

Lemma list_ascii_of_string_inj (a b : string) :
  list_ascii_of_string a = list_ascii_of_string b -> a = b.
Proof.
  intros H. rewrite <- (string_of_list_ascii_of_string a),
    <- (string_of_list_ascii_of_string b). now rewrite H.
Qed.

Lemma append_inv_head (s a b : string) :
  (s ++ a)%string = (s ++ b)%string -> a = b.
Proof.
  induction s as [|c s IH]; simpl; intros H; [exact H|].
  injection H as H. auto.
Qed.

Lemma append_inv_tail (s a b : string) :
  (a ++ s)%string = (b ++ s)%string -> a = b.
Proof.
  intros H. apply list_ascii_of_string_inj.
  apply (f_equal list_ascii_of_string) in H.
  rewrite !list_ascii_of_append in H.
  eapply app_inv_tail. exact H.
Qed.

Lemma length_list_ascii (s : string) :
  length (list_ascii_of_string s) = String.length s.
Proof. induction s as [|c s IH]; simpl; [reflexivity | now rewrite IH]. Qed.

Lemma Bytes_of_string_inj (a b : string) :
  Bytes.of_string a = Bytes.of_string b -> a = b.
Proof.
  unfold Bytes.of_string. intros H.
  apply list_ascii_of_string_inj.
  revert H. generalize (list_ascii_of_string a) (list_ascii_of_string b).
  induction l as [|x l IH]; intros [|y l']; simpl; intros H;
    try discriminate; [reflexivity|].
  injection H as Hxy Hl. f_equal; [|now apply IH].
  apply N2Z.inj in Hxy.
  rewrite <- (ascii_N_embedding x), <- (ascii_N_embedding y).
  now rewrite Hxy.
Qed.

Lemma Bytes_prefix_Some (n : nat) (s : string) :
  (n <= String.length s)%nat -> Bytes.prefix n s = Some (substring 0 n s).
Proof.
  intros H. unfold Bytes.prefix.
  destruct (Nat.leb_spec n (String.length s)); [reflexivity | lia].
Qed.

End Strings.

(** ** sha256 and hex: the shape of a digest *)

Section Digest.

Lemma byte_at_is_byte (z sh : Z) : is_byte (Sha256.byte_at z sh).
Proof.
  unfold is_byte, Sha256.byte_at.
  change 0xff with (Z.ones 8). rewrite Z.land_ones by lia.
  apply Z.mod_pos_bound. lia.
Qed.

Lemma be_uint32_bytes (z : Z) : Forall is_byte (Sha256.be_uint32 z).
Proof.
  unfold Sha256.be_uint32. simpl.
  repeat (constructor; [apply byte_at_is_byte|]). constructor.
Qed.

Lemma Sum256_length (data : list Z) : length (Sha256.Sum256 data) = 32%nat.
Proof.
  unfold Sha256.Sum256, Sha256.checkSum. cbv zeta.
  destruct (Sha256.dh _). reflexivity.
Qed.

Lemma Sum256_bytes (data : list Z) : Forall is_byte (Sha256.Sum256 data).
Proof.
  unfold Sha256.Sum256, Sha256.checkSum. cbv zeta.
  destruct (Sha256.dh _).
  repeat (apply Forall_app; split); apply be_uint32_bytes.
Qed.

(** The constants and the digest on the test vectors of the standard. *)
Lemma sha256_constants :
  length Sha256._K = 64%nat /\
  Sha256._K !! 0%nat = Some 0x428a2f98 /\ Sha256._K !! 63%nat = Some 0xc67178f2 /\
  Sha256.ra Sha256.init = 0x6a09e667 /\ Sha256.rh Sha256.init = 0x5be0cd19.
Proof. vm_compute. repeat split; reflexivity. Qed.

Lemma Sum256_test_vectors :
  Hex.EncodeToString (Sha256.Sum256 (Bytes.of_string "")) =
    "e3b0c44298fc1c149afbf4c8996fb92427ae41e4649b934ca495991b7852b855" /\
  Hex.EncodeToString (Sha256.Sum256 (Bytes.of_string "abc")) =
    "ba7816bf8f01cfea414140de5dae2223b00361a396177a9cb410ff61f20015ad" /\
  Hex.EncodeToString
    (Sha256.Sum256
       (Bytes.of_string "abcdbcdecdefdefgefghfghighijhijkijkljklmklmnlmnomnopnopq")) =
    "248d6a61d20638b8e5c026930c3e6039a33ce45964ff2167f6ecedd419db06c1".
Proof. vm_compute. repeat split; reflexivity. Qed.

Lemma EncodeToString_length (src : list Z) :
  String.length (Hex.EncodeToString src) = (2 * length src)%nat.
Proof. induction src as [|v src IH]; simpl; [reflexivity | rewrite IH; lia]. Qed.

Lemma nibble_cases (i : Z) :
  0 <= i < 16 ->
  In i [0; 1; 2; 3; 4; 5; 6; 7; 8; 9; 10; 11; 12; 13; 14; 15].
Proof. intros H. simpl. lia. Qed.

Lemma digit_lower_hex (i : Z) : 0 <= i < 16 -> lower_hex (Hex.digit i).
Proof.
  intros H. apply nibble_cases in H. unfold lower_hex.
  simpl in H. repeat (destruct H as [<- | H]; [vm_compute; tauto|]).
  destruct H.
Qed.

Lemma digit_inj (i j : Z) :
  0 <= i < 16 -> 0 <= j < 16 -> Hex.digit i = Hex.digit j -> i = j.
Proof.
  intros Hi Hj. apply nibble_cases in Hi, Hj. simpl in Hi, Hj.
  repeat (destruct Hi as [<- | Hi]);
    try (destruct Hi);
    repeat (destruct Hj as [<- | Hj]); try (destruct Hj);
    vm_compute; intros E; first [reflexivity | discriminate E].
Qed.

Lemma high_nibble (v : Z) : is_byte v -> 0 <= Z.shiftr v 4 < 16.
Proof.
  unfold is_byte. intros H. rewrite Z.shiftr_div_pow2 by lia.
  change (2 ^ 4) with 16. split.
  - apply Z.div_pos; lia.
  - apply Z.div_lt_upper_bound; lia.
Qed.

Lemma low_nibble (v : Z) : 0 <= Z.land v 0x0f < 16.
Proof.
  change 0x0f with (Z.ones 4). rewrite Z.land_ones by lia.
  apply Z.mod_pos_bound. lia.
Qed.

Lemma nibbles_inj (v w : Z) :
  Z.shiftr v 4 = Z.shiftr w 4 -> Z.land v 0x0f = Z.land w 0x0f -> v = w.
Proof.
  rewrite !Z.shiftr_div_pow2 by lia.
  change 0x0f with (Z.ones 4). rewrite !Z.land_ones by lia.
  change (2 ^ 4) with 16. intros Hd Hm.
  rewrite (Z.div_mod v 16), (Z.div_mod w 16) by lia. now rewrite Hd, Hm.
Qed.

Lemma EncodeToString_lower_hex (src : list Z) :
  Forall is_byte src ->
  Forall lower_hex (list_ascii_of_string (Hex.EncodeToString src)).
Proof.
  induction 1 as [|v src Hv _ IH]; simpl; [constructor|].
  constructor; [apply digit_lower_hex, high_nibble, Hv|].
  constructor; [apply digit_lower_hex, low_nibble | exact IH].
Qed.

Lemma EncodeToString_inj (a b : list Z) :
  Forall is_byte a -> Forall is_byte b ->
  Hex.EncodeToString a = Hex.EncodeToString b -> a = b.
Proof.
  intros Ha. revert b.
  induction Ha as [|v a Hv _ IH]; intros b Hb E.
  - destruct b; [reflexivity | discriminate E].
  - destruct Hb as [|w b Hw Hb]; [discriminate E|].
    simpl in E. injection E as E1 E2 E3.
    apply digit_inj in E1; [| now apply high_nibble..].
    apply digit_inj in E2; [| apply low_nibble..].
    f_equal; [now apply nibbles_inj | now apply IH].
Qed.

End Digest.

(** ** fmt *)

Section FmtFacts.

Lemma Sprintf_d_inj (x y : Z) : Fmt.Sprintf_d x = Fmt.Sprintf_d y -> x = y.
Proof.
  unfold Fmt.Sprintf_d. intros H.
  apply (f_equal NilEmpty.int_of_string) in H.
  rewrite !NilEmpty.isi in H. injection H as H.
  now apply DecimalZ.to_int_inj.
Qed.

End FmtFacts.

(** ** The block hash *)

Section BlockHash.

Lemma fold_left_tx_string (l : list Transaction) (init : string) :
  fold_left (fun acc tx => (acc ++ tx_string tx)%string) l init =
  (init ++ txs_string l)%string.
Proof.
  revert init. induction l as [|tx l IH]; intros init; simpl.
  - now rewrite append_nil_r.
  - rewrite IH. apply append_assoc.
Qed.

Lemma txs_string_app (l1 l2 : list Transaction) :
  txs_string (l1 ++ l2) = (txs_string l1 ++ txs_string l2)%string.
Proof.
  induction l1 as [|tx l1 IH]; simpl; [reflexivity|].
  now rewrite IH, append_assoc.
Qed.

(** [calculateHash] is the hex digest of [hashInput]. *)
Lemma calculateHash_hashInput (m : store) (b : Block) :
  calculateHash m b =
  Hex.EncodeToString (Sha256.Sum256 (Bytes.of_string (hashInput m b))).
Proof.
  unfold calculateHash, hashInput. cbv zeta.
  change (fun hashInput tx =>
            (hashInput ++ (Sender tx ++ Recipient tx ++ Fmt.Sprintf_f (Amount tx)))%string)
    with (fun acc tx => (acc ++ tx_string tx)%string).
  rewrite fold_left_tx_string. now rewrite !append_assoc.
Qed.

(** The stored hash is not hashed. *)
Lemma calculateHash_ignores_Hash (m : store) (i t n : Z) (txs : slice)
    (p h h' : string) :
  calculateHash m (mkBlock i t txs n p h) = calculateHash m (mkBlock i t txs n p h').
Proof. rewrite !calculateHash_hashInput. reflexivity. Qed.

Lemma calculateHash_length (m : store) (b : Block) :
  String.length (calculateHash m b) = 64%nat.
Proof.
  rewrite calculateHash_hashInput, EncodeToString_length, Sum256_length.
  reflexivity.
Qed.

Lemma isProofValid_candidate (m : store) (lastBlock : Block) (nonce : Z)
    (txs : slice) (ts : Z) :
  isProofValid m lastBlock nonce txs ts =
  Some (String.eqb (substring 0 4 (calculateHash m (candidate lastBlock nonce txs ts)))
                   "0000").
Proof.
  unfold isProofValid. cbv zeta. fold (candidate lastBlock nonce txs ts).
  rewrite Bytes_prefix_Some; [reflexivity|].
  rewrite calculateHash_length. lia.
Qed.

Lemma wf_slice_length (m : store) (s : slice) :
  wf_slice m s = true -> length (elems m s) = len s.
Proof.
  unfold wf_slice, elems. intros H.
  apply andb_true_iff in H as [Hle H]. apply Nat.leb_le in Hle.
  rewrite length_take. apply orb_true_iff in H as [H | H].
  - apply Nat.eqb_eq in H. lia.
  - destruct (m !! ptr s) as [arr|]; [|discriminate].
    apply Nat.eqb_eq in H. simpl. lia.
Qed.

End BlockHash.

(** C10: the block hash is a string of exactly 64 lowercase hexadecimal
    characters, for every block and store; hence the slice [guessHash[:4]]
    in [isProofValid] is in bounds: [isProofValid] never panics and answers
    whether the first four characters of the candidate's hash are "0000". *)
Theorem calculateHash_64_lower_hex (m : store) (b : Block) :
  String.length (calculateHash m b) = 64%nat /\
  Forall lower_hex (list_ascii_of_string (calculateHash m b)) /\
  (forall lastBlock nonce txs ts,
     Bytes.prefix 4 (calculateHash m (candidate lastBlock nonce txs ts)) =
       Some (substring 0 4 (calculateHash m (candidate lastBlock nonce txs ts))) /\
     isProofValid m lastBlock nonce txs ts =
       Some (String.eqb
               (substring 0 4 (calculateHash m (candidate lastBlock nonce txs ts)))
               "0000")).
Proof.
  split; [apply calculateHash_length|]. split.
  - rewrite calculateHash_hashInput.
    apply EncodeToString_lower_hex, Sum256_bytes.
  - intros lastBlock nonce txs ts. split.
    + apply Bytes_prefix_Some. rewrite calculateHash_length. lia.
    + apply isProofValid_candidate.
Qed.

(** ** Slices and the store *)

Section Memory.

Variable spare : nat -> nat -> nat.

Lemma wf_slice_spec (m : store) (s : slice) :
  wf_slice m s = true <->
  (len s <= cap s)%nat /\
  (cap s = 0%nat \/ exists arr, m !! ptr s = Some arr /\ length arr = cap s).
Proof.
  unfold wf_slice. rewrite andb_true_iff, orb_true_iff, Nat.leb_le, Nat.eqb_eq.
  destruct (m !! ptr s) as [arr|].
  - rewrite Nat.eqb_eq. split; intros [H1 H2]; (split; [exact H1|]).
    + destruct H2 as [H2 | H2]; [now left | right; eauto].
    + destruct H2 as [H2 | [arr' [[= <-] H2]]]; [now left | now right].
  - split; intros [H1 H2]; (split; [exact H1|]).
    + destruct H2 as [H2 | H2]; [now left | discriminate].
    + destruct H2 as [H2 | [arr' [[=] _]]]. now left.
Qed.

Lemma elems_empty (m : store) (s : slice) : len s = 0%nat -> elems m s = [].
Proof. unfold elems. now intros ->. Qed.

Lemma wf_empty_slice (m : store) : wf_slice m empty_slice = true.
Proof. reflexivity. Qed.

(** [append] adds the element at the end of the slice. *)
Lemma append_elems (m : store) (s : slice) (x : Transaction) :
  wf_slice m s = true ->
  elems (append spare m s x).1 (append spare m s x).2 = elems m s ++ [x].
Proof.
  intros Hwf. pose proof (wf_slice_length _ _ Hwf) as Hlen.
  apply wf_slice_spec in Hwf as [Hle Harr].
  unfold append. destruct (Nat.ltb_spec (len s) (cap s)) as [Hlt | Hge]; simpl.
  - destruct Harr as [H0 | [arr [Hm Ha]]]; [lia|].
    unfold elems. simpl. rewrite list_lookup_alter_eq, Hm. simpl.
    rewrite (take_S_r _ _ x) by (apply list_lookup_insert_eq; lia).
    now rewrite take_insert_ge by lia.
  - unfold elems at 1. simpl.
    rewrite list_lookup_middle by reflexivity. simpl.
    change (elems m s ++ x :: replicate (spare (cap s) (S (len s))) zeroTransaction)
      with (elems m s ++ [x] ++ replicate (spare (cap s) (S (len s))) zeroTransaction).
    rewrite app_assoc. apply take_app_length'.
    rewrite length_app, Hlen. simpl. lia.
Qed.

Lemma append_wf (m : store) (s : slice) (x : Transaction) :
  wf_slice m s = true ->
  wf_slice (append spare m s x).1 (append spare m s x).2 = true.
Proof.
  intros Hwf. pose proof (wf_slice_length _ _ Hwf) as Hlen.
  apply wf_slice_spec in Hwf as [Hle Harr]. apply wf_slice_spec.
  unfold append. destruct (Nat.ltb_spec (len s) (cap s)) as [Hlt | Hge]; simpl.
  - split; [lia|]. destruct Harr as [H0 | [arr [Hm Ha]]]; [lia|].
    right. exists (<[len s := x]> arr).
    rewrite list_lookup_alter_eq, Hm. simpl.
    now rewrite length_insert.
  - split; [lia|]. right. eexists. split.
    + apply list_lookup_middle. reflexivity.
    + rewrite length_app, Hlen. simpl. rewrite length_replicate. lia.
Qed.

(** [append] leaves alone every slice that does not share an array with
    room in it. *)
Lemma append_frame (m : store) (s : slice) (x : Transaction) (s2 : slice) :
  wf_slice m s2 = true ->
  cap s2 = 0%nat \/ cap s = 0%nat \/ ptr s2 <> ptr s ->
  elems (append spare m s x).1 s2 = elems m s2 /\
  wf_slice (append spare m s x).1 s2 = true /\
  (cap s2 = 0%nat \/ ptr s2 <> ptr (append spare m s x).2).
Proof.
  intros Hwf Hsep. apply wf_slice_spec in Hwf as [Hle Harr].
  destruct (Nat.eq_dec (cap s2) 0%nat) as [H0 | Hpos].
  { split; [|split; [|now left]].
    - rewrite !elems_empty by lia. reflexivity.
    - apply wf_slice_spec. split; [lia | now left]. }
  destruct Harr as [H0 | [arr [Hm Ha]]]; [lia|].
  unfold append. destruct (Nat.ltb_spec (len s) (cap s)) as [Hlt | Hge]; simpl.
  - assert (Hne : ptr s <> ptr s2) by (destruct Hsep as [? | [? | ?]]; [lia | lia | congruence]).
    split; [|split; [|right; congruence]].
    + unfold elems. now rewrite list_lookup_alter_ne.
    + apply wf_slice_spec. split; [lia|]. right. exists arr.
      now rewrite list_lookup_alter_ne.
  - pose proof (lookup_lt_Some _ _ _ Hm) as Hlt.
    split; [|split; [|right; lia]].
    + unfold elems. now rewrite lookup_app_l.
    + apply wf_slice_spec. split; [lia|]. right. exists arr.
      now rewrite lookup_app_l.
Qed.

End Memory.

(** ** The operations on a state *)

Section Operations.

Variable spare : nat -> nat -> nat.

Lemma wf_state_spec (st : state) :
  wf_state st = true <->
  wf_slice (mem st) (Mempool (bc st)) = true /\
  Forall (fun b => wf_slice (mem st) (Transactions b) = true) (Chain (bc st)).
Proof.
  unfold wf_state. rewrite andb_true_iff, forallb_forall, Forall_forall.
  split; intros [H1 H2]; (split; [exact H1|]); intros b Hb; apply H2;
    now apply list_elem_of_In.
Qed.

Lemma addTransaction_unfold (sender recipient : string)
    (amount : Float64.float64) (st : state) :
  let tx := mkTransaction sender recipient amount
              (generateTransactionID (mkTransaction sender recipient amount "")) in
  addTransaction spare sender recipient amount st =
  (generateTransactionID (mkTransaction sender recipient amount ""),
   mkState (append spare (mem st) (Mempool (bc st)) tx).1
           (mkBlockchain (Chain (bc st))
                         (append spare (mem st) (Mempool (bc st)) tx).2)).
Proof.
  unfold addTransaction. cbv zeta. simpl.
  now destruct (append spare (mem st) (Mempool (bc st)) _).
Qed.

Lemma addTransaction_Chain (sender recipient : string)
    (amount : Float64.float64) (st : state) :
  Chain (bc (addTransaction spare sender recipient amount st).2) = Chain (bc st).
Proof. now rewrite addTransaction_unfold. Qed.

Lemma calculateHash_elems (m1 m2 : store) (b : Block) :
  elems m1 (Transactions b) = elems m2 (Transactions b) ->
  calculateHash m1 b = calculateHash m2 b.
Proof. intros H. rewrite !calculateHash_hashInput. unfold hashInput. now rewrite H. Qed.

(** One submission keeps the state well formed and separated, and reads
    every committed block as before. *)
Lemma addTransaction_frozen (sender recipient : string)
    (amount : Float64.float64) (st : state) :
  wf_state st = true -> separated st ->
  let st' := (addTransaction spare sender recipient amount st).2 in
  wf_state st' = true /\ separated st' /\
  Chain (bc st') = Chain (bc st) /\
  Forall (fun b => elems (mem st') (Transactions b) = elems (mem st) (Transactions b))
         (Chain (bc st)).
Proof.
  intros Hwf Hsep. rewrite addTransaction_unfold. cbv zeta. simpl.
  apply wf_state_spec in Hwf as [Hpool Hblocks].
  set (tx := mkTransaction _ _ _ _).
  assert (Hall : Forall (fun b =>
            elems (append spare (mem st) (Mempool (bc st)) tx).1 (Transactions b)
              = elems (mem st) (Transactions b) /\
            wf_slice (append spare (mem st) (Mempool (bc st)) tx).1 (Transactions b) = true /\
            (cap (Transactions b) = 0%nat \/
             ptr (Transactions b) <> ptr (append spare (mem st) (Mempool (bc st)) tx).2))
          (Chain (bc st))).
  { unfold separated in Hsep. rewrite Forall_forall in *.
    intros b Hb. apply append_frame; auto. }
  split; [|split; [|split]].
  - apply wf_state_spec. simpl. split; [now apply append_wf|].
    eapply Forall_impl; [exact Hall|]. now intros b (_ & H & _).
  - unfold separated. simpl. eapply Forall_impl; [exact Hall|].
    intros b (_ & _ & [H | H]); [now left | now right; right].
  - reflexivity.
  - eapply Forall_impl; [exact Hall|]. now intros b (H & _).
Qed.

Lemma addBlock_wf (nonce ts : Z) (ph : string) (st : state) :
  wf_state st = true ->
  wf_state (addBlock nonce ts ph st) = true /\ separated (addBlock nonce ts ph st).
Proof.
  intros Hwf. apply wf_state_spec in Hwf as [Hpool Hblocks]. split.
  - apply wf_state_spec. simpl. split; [reflexivity|].
    apply Forall_app. split; [exact Hblocks|]. now constructor.
  - unfold separated. simpl. apply Forall_forall. intros b _. now right; left.
Qed.

Lemma createBlockchain_wf (now : Z) :
  wf_state (createBlockchain now) = true /\ separated (createBlockchain now).
Proof.
  split; [reflexivity|]. unfold separated. simpl.
  constructor; [now left | constructor].
Qed.

Lemma addTransactions_frozen (txs : list (string * string * Float64.float64))
    (st : state) :
  wf_state st = true -> separated st ->
  let st' := addTransactions spare txs st in
  wf_state st' = true /\ separated st' /\
  Chain (bc st') = Chain (bc st) /\
  Forall (fun b => elems (mem st') (Transactions b) = elems (mem st) (Transactions b))
         (Chain (bc st)).
Proof.
  revert st. induction txs as [|[[sender recipient] amount] txs IH];
    intros st Hwf Hsep; simpl.
  - repeat split; try assumption. now apply Forall_forall.
  - destruct (addTransaction_frozen sender recipient amount st Hwf Hsep)
      as (Hwf1 & Hsep1 & Hc1 & He1).
    destruct (IH _ Hwf1 Hsep1) as (Hwf2 & Hsep2 & Hc2 & He2).
    cbv zeta in *. unfold addTransactions in *. simpl.
    repeat split; try assumption.
    + now rewrite Hc2.
    + rewrite Hc1 in He2. rewrite Forall_forall in *.
      intros b Hb. now rewrite He2, He1.
Qed.

End Operations.

(** C3: the chain that [createBlockchain] returns has length 1 and an empty
    pool; its only block has index 0, previous hash "0", nonce 100, no
    transactions, the creation time as timestamp, and its stored hash is
    [calculateHash] of the block. *)
Theorem createBlockchain_genesis (now : Z) :
  let st := createBlockchain now in
  length (Chain (bc st)) = 1%nat /\
  len (Mempool (bc st)) = 0%nat /\
  elems (mem st) (Mempool (bc st)) = [] /\
  exists g,
    Chain (bc st) = [g] /\
    Index g = 0 /\ PreviousHash g = "0" /\ Nonce g = 100 /\ Timestamp g = now /\
    len (Transactions g) = 0%nat /\
    elems (mem st) (Transactions g) = [] /\
    Hash g = calculateHash (mem st) g.
Proof.
  cbv zeta. unfold createBlockchain, createGenesisBlock.
  cbn [mem bc Chain Mempool Index Timestamp Transactions Nonce PreviousHash app].
  split; [reflexivity|]. split; [reflexivity|]. split; [reflexivity|].
  eexists. split; [reflexivity|].
  cbn [Index Timestamp Transactions Nonce PreviousHash Hash].
  do 6 (split; [reflexivity|]).
  apply calculateHash_ignores_Hash.
Qed.

(** C2: after [addBlock nonce timestamp previousHash], in every state, the
    pool is empty and the chain is the old chain with one block appended;
    that block has the old chain length as index, the given timestamp,
    nonce and previous hash, the transactions of the pool as it stood at
    the call, and [calculateHash] of the block as stored hash. *)
Theorem addBlock_commits (st : state) (nonce timestamp : Z) (previousHash : string) :
  let st' := addBlock nonce timestamp previousHash st in
  len (Mempool (bc st')) = 0%nat /\
  elems (mem st') (Mempool (bc st')) = [] /\
  length (Chain (bc st')) = S (length (Chain (bc st))) /\
  exists b,
    Chain (bc st') = Chain (bc st) ++ [b] /\
    last (Chain (bc st')) = Some b /\
    Index b = Z.of_nat (length (Chain (bc st))) /\
    Timestamp b = timestamp /\ Nonce b = nonce /\ PreviousHash b = previousHash /\
    elems (mem st') (Transactions b) = elems (mem st) (Mempool (bc st)) /\
    Hash b = calculateHash (mem st') b.
Proof.
  cbv zeta. unfold addBlock.
  cbn [mem bc Chain Mempool Index Timestamp Transactions Nonce PreviousHash].
  split; [reflexivity|]. split; [reflexivity|].
  split; [rewrite length_app; simpl; lia|].
  eexists. split; [reflexivity|]. split; [apply last_snoc|].
  cbn [Index Timestamp Transactions Nonce PreviousHash Hash].
  do 5 (split; [reflexivity|]).
  apply calculateHash_ignores_Hash.
Qed.

(** C6: the block hash is a function of the index, the timestamp, the
    nonce, the previous hash and the list of transactions alone: two blocks
    that agree on these have the same hash, wherever their transactions are
    stored and whatever their stored hash. *)
Theorem calculateHash_deterministic (m1 m2 : store) (b1 b2 : Block) :
  wf_slice m1 (Transactions b1) = true ->
  wf_slice m2 (Transactions b2) = true ->
  Index b1 = Index b2 ->
  Timestamp b1 = Timestamp b2 ->
  Nonce b1 = Nonce b2 ->
  PreviousHash b1 = PreviousHash b2 ->
  elems m1 (Transactions b1) = elems m2 (Transactions b2) ->
  calculateHash m1 b1 = calculateHash m2 b2.
Proof.
  intros Hwf1 Hwf2 Hi Ht Hn Hp He.
  rewrite !calculateHash_hashInput. unfold hashInput.
  rewrite <- (wf_slice_length _ _ Hwf1), <- (wf_slice_length _ _ Hwf2).
  now rewrite Hi, Ht, Hn, Hp, He.
Qed.

Lemma calculateHash_deterministic_witness :
  wf_slice (mem example_pool) (Mempool (bc example_pool)) = true /\
  wf_slice (mem example_pool_slack) (Mempool (bc example_pool_slack)) = true /\
  Mempool (bc example_pool) <> Mempool (bc example_pool_slack) /\
  elems (mem example_pool) (Mempool (bc example_pool)) =
  elems (mem example_pool_slack) (Mempool (bc example_pool_slack)) /\
  calculateHash (mem example_pool)
    (mkBlock 1 1700030657 (Mempool (bc example_pool)) 2 "ab" "") =
  calculateHash (mem example_pool_slack)
    (mkBlock 1 1700030657 (Mempool (bc example_pool_slack)) 2 "ab" "stale").
Proof.
  split; [vm_compute; reflexivity|]. split; [vm_compute; reflexivity|].
  split; [vm_compute; discriminate|]. split; [vm_compute; reflexivity|].
  apply calculateHash_deterministic; vm_compute; reflexivity.
Defined.

(** C7: the id that [addTransaction] returns is [generateTransactionID] of
    the sender, the recipient and the amount: it is the same in every state
    and under every growth of the pool; the transaction appended to the pool
    carries the three fields and that id.  The literals [50], [50.0] and
    [50.00] are one [float64], and ("Alice", "Bob", 50) always gets the id
    a0adb2d6...dae777. *)
Theorem addTransaction_id (spare : nat -> nat -> nat) (st : state)
    (sender recipient : string) (amount : Float64.float64) :
  wf_state st = true ->
  let r := addTransaction spare sender recipient amount st in
  r.1 = generateTransactionID (mkTransaction sender recipient amount "") /\
  (forall spare' st', (addTransaction spare' sender recipient amount st').1 = r.1) /\
  elems (mem r.2) (Mempool (bc r.2)) =
    elems (mem st) (Mempool (bc st)) ++ [mkTransaction sender recipient amount r.1] /\
  Float64.lit 500 1 = Float64.lit 50 0 /\
  Float64.lit 5000 2 = Float64.lit 50 0 /\
  (addTransaction spare "Alice" "Bob" (Float64.lit 50 0) st).1 =
    "a0adb2d68e7bf21bb88ab405a62f6b76902d2f23f917a2d552f83c0f33dae777".
Proof.
  intros Hwf. apply wf_state_spec in Hwf as [Hpool _]. cbv zeta.
  rewrite !addTransaction_unfold. simpl.
  split; [reflexivity|]. split.
  { intros spare' st'. now rewrite addTransaction_unfold. }
  split; [now apply append_elems|].
  split; [vm_compute; reflexivity|].
  split; vm_compute; reflexivity.
Qed.

Lemma addTransaction_id_witness :
  wf_state example_pool = true /\
  let r := addTransaction doubling "Bob" "Charlie" (Float64.lit 25 0) example_pool in
  r.1 = generateTransactionID (mkTransaction "Bob" "Charlie" (Float64.lit 25 0) "") /\
  (forall spare' st',
     (addTransaction spare' "Bob" "Charlie" (Float64.lit 25 0) st').1 = r.1) /\
  elems (mem r.2) (Mempool (bc r.2)) =
    elems (mem example_pool) (Mempool (bc example_pool)) ++
    [mkTransaction "Bob" "Charlie" (Float64.lit 25 0) r.1] /\
  Float64.lit 500 1 = Float64.lit 50 0 /\
  Float64.lit 5000 2 = Float64.lit 50 0 /\
  (addTransaction doubling "Alice" "Bob" (Float64.lit 50 0) example_pool).1 =
    "a0adb2d68e7bf21bb88ab405a62f6b76902d2f23f917a2d552f83c0f33dae777".
Proof.
  split; [vm_compute; reflexivity|].
  apply (addTransaction_id doubling example_pool "Bob" "Charlie" (Float64.lit 25 0)).
  vm_compute. reflexivity.
Defined.

(** C8: once [addBlock] has committed, in a well-formed state, no series of
    [addTransaction] calls changes the chain: the sequence of blocks stays
    the same, and every block of it reads the same transactions, hence has
    the same hash, as right after the commit. *)
Theorem committed_blocks_frozen (spare : nat -> nat -> nat) (st : state)
    (nonce timestamp : Z) (previousHash : string)
    (txs : list (string * string * Float64.float64)) :
  wf_state st = true ->
  let st1 := addBlock nonce timestamp previousHash st in
  let st2 := addTransactions spare txs st1 in
  Chain (bc st2) = Chain (bc st1) /\
  Forall (fun b =>
            elems (mem st2) (Transactions b) = elems (mem st1) (Transactions b) /\
            calculateHash (mem st2) b = calculateHash (mem st1) b)
         (Chain (bc st1)).
Proof.
  intros Hwf. cbv zeta.
  destruct (addBlock_wf nonce timestamp previousHash st Hwf) as [Hwf1 Hsep1].
  destruct (addTransactions_frozen spare txs _ Hwf1 Hsep1) as (_ & _ & Hc & He).
  split; [exact Hc|].
  eapply Forall_impl; [exact He|].
  intros b Hb. split; [exact Hb | now apply calculateHash_elems].
Qed.

Lemma committed_blocks_frozen_witness :
  wf_state example_pool = true /\
  let st1 := addBlock 2 1700030657 "ab" example_pool in
  let st2 := addTransactions doubling
               [("Carol", "Dave", Float64.lit 1 0); ("Dave", "Erin", Float64.lit 2 0)]
               st1 in
  Chain (bc st2) = Chain (bc st1) /\
  Forall (fun b =>
            elems (mem st2) (Transactions b) = elems (mem st1) (Transactions b) /\
            calculateHash (mem st2) b = calculateHash (mem st1) b)
         (Chain (bc st1)).
Proof.
  split; [vm_compute; reflexivity|].
  apply (committed_blocks_frozen doubling example_pool 2 1700030657 "ab").
  vm_compute. reflexivity.
Defined.

(** ** Runs from [createBlockchain] *)

Section Linked.

Variable spare : nat -> nat -> nat.

Lemma chain_linked_genesis (g : Block) : Index g = 0 -> chain_linked [g].
Proof.
  intros Hg. split; [discriminate|]. split.
  - intros [|i] b Hb; simpl in Hb; [|discriminate].
    injection Hb as <-. exact Hg.
  - intros i p b _ Hb. destruct i; discriminate.
Qed.

Lemma chain_linked_snoc (c : list Block) (tip b : Block) :
  chain_linked c -> last c = Some tip ->
  Index b = Z.of_nat (length c) -> PreviousHash b = Hash tip ->
  chain_linked (c ++ [b]).
Proof.
  intros (Hne & Hidx & Hprev) Htip Hi Hp. split; [|split].
  - destruct c; discriminate.
  - intros i b0 Hb0. apply lookup_snoc_Some in Hb0 as [[_ Hb0] | [-> <-]].
    + now apply Hidx.
    + exact Hi.
  - intros i p b0 Hp0 Hb0.
    apply lookup_snoc_Some in Hb0 as [[Hlt Hb0] | [Hlen <-]].
    + rewrite lookup_app_l in Hp0 by lia. eapply Hprev; eassumption.
    + rewrite lookup_app_l in Hp0 by lia.
      rewrite last_lookup, <- Hlen in Htip. simpl in Htip.
      rewrite Hp0 in Htip. injection Htip as ->. exact Hp.
Qed.

Lemma step_chain_linked (o : op) (st st' : state) :
  chain_linked (Chain (bc st)) -> step spare o st = Return st' ->
  chain_linked (Chain (bc st')).
Proof.
  intros Hl Hstep. destruct o as [sender recipient amount | fuel now | nonce ts];
    simpl in Hstep.
  - injection Hstep as <-. now rewrite addTransaction_Chain.
  - destruct (proofOfWork fuel now st); try discriminate.
    now injection Hstep as <-.
  - destruct (last (Chain (bc st))) as [tip|] eqn:Htip; [|discriminate].
    injection Hstep as <-. unfold addBlock. cbv zeta. simpl.
    eapply chain_linked_snoc; [exact Hl | exact Htip | reflexivity | reflexivity].
Qed.

Lemma run_chain_linked (ops : list op) (st st' : state) :
  chain_linked (Chain (bc st)) -> run spare ops st = Return st' ->
  chain_linked (Chain (bc st')).
Proof.
  revert st. induction ops as [|o ops IH]; intros st Hl Hrun; simpl in Hrun.
  - now injection Hrun as <-.
  - destruct (step spare o st) as [st1| |] eqn:Hstep; try discriminate.
    eapply IH; [|exact Hrun]. eapply step_chain_linked; eassumption.
Qed.

(** The states of a run stay well formed and separated. *)
Lemma step_wf (o : op) (st st' : state) :
  wf_state st = true -> separated st -> step spare o st = Return st' ->
  wf_state st' = true /\ separated st'.
Proof.
  intros Hwf Hsep Hstep.
  destruct o as [sender recipient amount | fuel now | nonce ts]; simpl in Hstep.
  - injection Hstep as <-.
    destruct (addTransaction_frozen spare sender recipient amount st Hwf Hsep)
      as (H1 & H2 & _). now split.
  - destruct (proofOfWork fuel now st); try discriminate.
    injection Hstep as <-. now split.
  - destruct (last (Chain (bc st))) as [tip|]; [|discriminate].
    injection Hstep as <-. now apply addBlock_wf.
Qed.

Lemma run_wf (ops : list op) (st st' : state) :
  wf_state st = true -> separated st -> run spare ops st = Return st' ->
  wf_state st' = true /\ separated st'.
Proof.
  revert st. induction ops as [|o ops IH]; intros st Hwf Hsep Hrun; simpl in Hrun.
  - injection Hrun as <-. now split.
  - destruct (step spare o st) as [st1| |] eqn:Hstep; try discriminate.
    destruct (step_wf _ _ _ Hwf Hsep Hstep). eapply IH; eassumption.
Qed.

End Linked.

(** C4: in every state that a series of [addTransaction], [proofOfWork] and
    [addBlock] calls reaches from [createBlockchain], each commit passing the
    hash of the current tip, the chain is not empty, the block at position
    [i] has index [i], and every block after the first has as previous hash
    the stored hash of the block before it. *)
Theorem reachable_chain_linked (spare : nat -> nat -> nat) (now : Z)
    (ops : list op) (st : state) :
  run spare ops (createBlockchain now) = Return st ->
  Chain (bc st) <> [] /\
  (forall i b, Chain (bc st) !! i = Some b -> Index b = Z.of_nat i) /\
  (forall i p b,
     Chain (bc st) !! i = Some p -> Chain (bc st) !! S i = Some b ->
     PreviousHash b = Hash p).
Proof.
  intros Hrun. apply (run_chain_linked spare ops (createBlockchain now)); [|exact Hrun].
  apply chain_linked_genesis. reflexivity.
Qed.

Lemma reachable_chain_linked_witness :
  run doubling example_ops (createBlockchain 1700000000) = Return example_chain /\
  Chain (bc example_chain) <> [] /\
  (forall i b, Chain (bc example_chain) !! i = Some b -> Index b = Z.of_nat i) /\
  (forall i p b,
     Chain (bc example_chain) !! i = Some p ->
     Chain (bc example_chain) !! S i = Some b ->
     PreviousHash b = Hash p).
Proof.
  assert (Hrun : run doubling example_ops (createBlockchain 1700000000) =
                 Return example_chain) by (vm_compute; reflexivity).
  split; [exact Hrun|].
  exact (reachable_chain_linked doubling 1700000000 example_ops example_chain Hrun).
Defined.

(** ** Machine integers *)

Section GoIntFacts.

Ltac wrap_arith :=
  unfold GoInt.incr, GoInt.wrap64, GoInt.in_range, GoInt.min_int, GoInt.max_int in *;
  change (2 ^ 63) with 9223372036854775808 in *;
  change (2 ^ 64) with 18446744073709551616 in *;
  Z.div_mod_to_equations; lia.

Lemma wrap64_in_range (z : Z) : GoInt.in_range (GoInt.wrap64 z).
Proof. wrap_arith. Qed.

Lemma wrap64_id (z : Z) : GoInt.in_range z -> GoInt.wrap64 z = z.
Proof. intros H. wrap_arith. Qed.

Lemma wrap64_mod (z : Z) : GoInt.wrap64 z mod 2 ^ 64 = z mod 2 ^ 64.
Proof. wrap_arith. Qed.

Lemma wrap64_of_mod (z : Z) :
  GoInt.in_range z -> GoInt.wrap64 (z mod 2 ^ 64) = z.
Proof. intros H. wrap_arith. Qed.

Lemma incr_wrap64 (z : Z) : GoInt.incr (GoInt.wrap64 z) = GoInt.wrap64 (z + 1).
Proof. wrap_arith. Qed.

Lemma mod64_nonneg (z : Z) : 0 <= z -> GoInt.in_range z -> z mod 2 ^ 64 = z.
Proof. intros H0 H. wrap_arith. Qed.

Lemma mod64_bound (z : Z) : 0 <= z mod 2 ^ 64 < 2 ^ 64.
Proof. apply Z.mod_pos_bound. reflexivity. Qed.

End GoIntFacts.

(** ** The search of [proofOfWork] *)

Section Search.

Variables (m : store) (lastBlock : Block) (txs : slice) (ts : Z).

Local Abbreviation valid n := (isProofValid m lastBlock n txs ts).
Local Abbreviation search_from := (search m lastBlock txs ts).

Lemma search_S (fuel : nat) (n : Z) :
  search_from (S fuel) n =
  match valid n with
  | None => Panic
  | Some true => Return n
  | Some false => search_from fuel (GoInt.incr n)
  end.
Proof. reflexivity. Qed.

Lemma valid_cases (n : Z) : valid n = Some true \/ valid n = Some false.
Proof. rewrite isProofValid_candidate. destruct (String.eqb _ _); auto. Qed.

(** [k] failed tests take the search [k] nonces further. *)
Lemma search_skip (k fuel : nat) (z : Z) :
  (forall j : nat, (j < k)%nat -> valid (GoInt.wrap64 (z + Z.of_nat j)) = Some false) ->
  search_from (k + fuel)%nat (GoInt.wrap64 z) =
  search_from fuel (GoInt.wrap64 (z + Z.of_nat k)).
Proof.
  revert z. induction k as [|k IH]; intros z Hfail.
  - simpl. now rewrite Z.add_0_r.
  - change (S k + fuel)%nat with (S (k + fuel)). rewrite search_S.
    pose proof (Hfail 0%nat ltac:(lia)) as H0.
    rewrite Z.add_0_r in H0. rewrite H0, incr_wrap64, IH.
    + f_equal. f_equal. lia.
    + intros j Hj. specialize (Hfail (S j) ltac:(lia)).
      now replace (z + 1 + Z.of_nat j) with (z + Z.of_nat (S j)) by lia.
Qed.

(** The search returns the nonce of the first test that succeeds, once
    the fuel reaches the number of tests, and not before. *)
Lemma search_first (k : nat) :
  valid (GoInt.wrap64 (Z.of_nat k)) = Some true ->
  (forall j : nat, (j < k)%nat -> valid (GoInt.wrap64 (Z.of_nat j)) = Some false) ->
  (forall fuel, (k < fuel)%nat ->
     search_from fuel 0 = Return (GoInt.wrap64 (Z.of_nat k))) /\
  (forall fuel, (fuel <= k)%nat -> search_from fuel 0 = OutOfFuel).
Proof.
  intros Hk Hfail. split; intros fuel Hfuel.
  - replace fuel with (k + S (fuel - S k))%nat by lia.
    change 0 with (GoInt.wrap64 0) at 1.
    rewrite search_skip by (intros j Hj; now apply Hfail).
    now rewrite Z.add_0_l, search_S, Hk.
  - replace fuel with (fuel + 0)%nat by lia.
    change 0 with (GoInt.wrap64 0) at 1.
    rewrite search_skip; [reflexivity|].
    intros j Hj. apply Hfail. lia.
Qed.

(** Without a valid nonce the search uses up any fuel. *)
Lemma search_fails (fuel : nat) :
  (forall n, GoInt.in_range n -> valid n = Some false) ->
  search_from fuel 0 = OutOfFuel.
Proof.
  intros Hnone. replace fuel with (fuel + 0)%nat by lia.
  change 0 with (GoInt.wrap64 0) at 1.
  rewrite search_skip; [reflexivity|].
  intros j _. apply Hnone, wrap64_in_range.
Qed.

Lemma least_test (P : nat -> bool) (n : nat) :
  P n = true ->
  exists k, (k <= n)%nat /\ P k = true /\ forall j, (j < k)%nat -> P j = false.
Proof.
  intros Hn.
  assert (H : forall b, (b <= S n)%nat ->
            (exists k, (k < b)%nat /\ P k = true /\ forall j, (j < k)%nat -> P j = false) \/
            (forall j, (j < b)%nat -> P j = false)).
  { induction b as [|b IH]; intros Hb.
    - right. intros j Hj. lia.
    - destruct IH as [(k & Hk & Hpk & Hlt) | Hall]; [lia | |].
      + left. exists k. repeat split; auto.
      + destruct (P b) eqn:Hpb.
        * left. exists b. repeat split; auto.
        * right. intros j Hj. destruct (Nat.eq_dec j b) as [-> | Hne]; [exact Hpb|].
          apply Hall. lia. }
  destruct (H (S n) (Nat.le_refl _)) as [(k & Hk & Hpk & Hlt) | Hall].
  - exists k. repeat split; auto. lia.
  - rewrite Hall in Hn by lia. discriminate.
Qed.

(** A valid nonce in the range of [int] makes the search stop, at the
    first valid nonce in the order 0, 1, ..., max_int, min_int, ..., -1. *)
Lemma search_complete (n : Z) :
  GoInt.in_range n -> valid n = Some true ->
  exists k : nat,
    Z.of_nat k <= n mod 2 ^ 64 /\
    valid (GoInt.wrap64 (Z.of_nat k)) = Some true /\
    (forall j : nat, (j < k)%nat -> valid (GoInt.wrap64 (Z.of_nat j)) = Some false) /\
    (forall fuel, (k < fuel)%nat ->
       search_from fuel 0 = Return (GoInt.wrap64 (Z.of_nat k))) /\
    (forall fuel, (fuel <= k)%nat -> search_from fuel 0 = OutOfFuel).
Proof.
  intros Hr Hn.
  set (P := fun j : nat =>
              match valid (GoInt.wrap64 (Z.of_nat j)) with
              | Some true => true
              | _ => false
              end).
  pose proof (mod64_bound n) as Hb.
  assert (HP : P (Z.to_nat (n mod 2 ^ 64)) = true).
  { unfold P. rewrite Z2Nat.id by lia. now rewrite wrap64_of_mod, Hn. }
  destruct (least_test P _ HP) as (k & Hle & Hk & Hlt).
  assert (Hk' : valid (GoInt.wrap64 (Z.of_nat k)) = Some true).
  { unfold P in Hk. destruct (valid_cases (GoInt.wrap64 (Z.of_nat k))) as [E | E];
      rewrite E in Hk; [exact E | discriminate]. }
  assert (Hlt' : forall j : nat, (j < k)%nat ->
                   valid (GoInt.wrap64 (Z.of_nat j)) = Some false).
  { intros j Hj. specialize (Hlt j Hj). unfold P in Hlt.
    destruct (valid_cases (GoInt.wrap64 (Z.of_nat j))) as [E | E];
      rewrite E in Hlt; [discriminate | exact E]. }
  exists k. split; [lia|]. split; [exact Hk'|]. split; [exact Hlt'|].
  now apply search_first.
Qed.

End Search.

(** C1, as the code has it: when some nonce in the range of [int] passes
    [isProofValid] for the tip, the pool and the time read at the start,
    [proofOfWork] returns, once the fuel covers the tests, the first nonce
    that passes in the order of the search, 0, 1, 2, ... (and, after
    [max_int], the negative nonces from [min_int] up), paired with that
    time: every nonce tested before it fails, it passes [isProofValid], and
    the hash of its candidate block starts with "0000".  No valid nonce
    comes earlier in the search, and it is the smallest of the valid nonces
    that are not negative, when there is one; a valid negative nonce may lie
    below it. *)
Theorem proofOfWork_first_nonce (st : state) (now : Z) (tip : Block) (n : Z) :
  last (Chain (bc st)) = Some tip ->
  GoInt.in_range n ->
  isProofValid (mem st) tip n (Mempool (bc st)) now = Some true ->
  exists (nonce : Z) (tests : nat),
    (forall fuel, (tests <= fuel)%nat ->
       proofOfWork fuel now st = Return (nonce, now)) /\
    (forall fuel, (fuel < tests)%nat -> proofOfWork fuel now st = OutOfFuel) /\
    nonce = GoInt.wrap64 (Z.of_nat tests - 1) /\
    (forall k, 0 <= k < Z.of_nat tests - 1 ->
       isProofValid (mem st) tip (GoInt.wrap64 k) (Mempool (bc st)) now = Some false) /\
    isProofValid (mem st) tip nonce (Mempool (bc st)) now = Some true /\
    substring 0 4
      (calculateHash (mem st) (candidate tip nonce (Mempool (bc st)) now)) = "0000" /\
    nonce mod 2 ^ 64 <= n mod 2 ^ 64 /\
    (0 <= n ->
     0 <= nonce <= n /\
     forall k, 0 <= k < nonce ->
       isProofValid (mem st) tip k (Mempool (bc st)) now = Some false).
Proof.
  intros Htip Hr Hn.
  destruct (search_complete (mem st) tip (Mempool (bc st)) now n Hr Hn)
    as (k & Hle & Hk & Hfail & Hret & Hout).
  pose proof (mod64_bound n) as Hb.
  exists (GoInt.wrap64 (Z.of_nat k)), (S k).
  split; [|split; [|split; [|split; [|split; [|split; [|split]]]]]].
  - intros fuel Hfuel. unfold proofOfWork. rewrite Htip. cbv zeta.
    now rewrite Hret by lia.
  - intros fuel Hfuel. unfold proofOfWork. rewrite Htip. cbv zeta.
    now rewrite Hout by lia.
  - f_equal. lia.
  - intros j Hj. rewrite <- (Z2Nat.id j) by lia. apply Hfail. lia.
  - exact Hk.
  - rewrite isProofValid_candidate in Hk.
    remember (calculateHash (mem st) _) as h eqn:Eh in *. clear Eh.
    injection Hk as Hk. now apply String.eqb_eq in Hk.
  - rewrite wrap64_mod, Z.mod_small by lia. exact Hle.
  - intros Hn0. rewrite mod64_nonneg in Hle by assumption.
    assert (Hid : GoInt.wrap64 (Z.of_nat k) = Z.of_nat k).
    { apply wrap64_id. unfold GoInt.in_range, GoInt.min_int, GoInt.max_int in *. lia. }
    rewrite Hid. split; [lia|].
    intros j Hj. rewrite <- (Z2Nat.id j) by lia.
    rewrite <- (wrap64_id (Z.of_nat (Z.to_nat j))).
    + apply Hfail. lia.
    + unfold GoInt.in_range, GoInt.min_int, GoInt.max_int in *. lia.
Qed.

(** C9: when some nonce in the range of [int] passes [isProofValid] for the
    tip, the pool and the time read, the search of [proofOfWork] stops: there
    is a number of tests, at most 2^64, from which on any fuel makes
    [proofOfWork] return. *)
Theorem proofOfWork_terminates (st : state) (now : Z) (tip : Block) :
  last (Chain (bc st)) = Some tip ->
  (exists n, GoInt.in_range n /\
             isProofValid (mem st) tip n (Mempool (bc st)) now = Some true) ->
  exists (tests : nat) (r : Z * Z),
    Z.of_nat tests <= 2 ^ 64 /\
    forall fuel, (tests <= fuel)%nat -> proofOfWork fuel now st = Return r.
Proof.
  intros Htip (n & Hr & Hn).
  destruct (search_complete (mem st) tip (Mempool (bc st)) now n Hr Hn)
    as (k & Hle & _ & _ & Hret & _).
  pose proof (mod64_bound n) as Hb.
  exists (S k), (GoInt.wrap64 (Z.of_nat k), now). split; [lia|].
  intros fuel Hfuel. unfold proofOfWork. rewrite Htip. cbv zeta.
  now rewrite Hret by lia.
Qed.

(** Without a valid nonce [proofOfWork] never returns: it uses up any fuel. *)
Lemma proofOfWork_diverges (st : state) (now : Z) (tip : Block) :
  last (Chain (bc st)) = Some tip ->
  (forall n, GoInt.in_range n ->
             isProofValid (mem st) tip n (Mempool (bc st)) now = Some false) ->
  forall fuel, proofOfWork fuel now st = OutOfFuel.
Proof.
  intros Htip Hnone fuel. unfold proofOfWork. rewrite Htip. cbv zeta.
  now rewrite search_fails.
Qed.

Lemma proofOfWork_first_nonce_witness :
  last (Chain (bc example_pool)) = Some example_genesis /\
  GoInt.in_range 2 /\
  isProofValid (mem example_pool) example_genesis 2 (Mempool (bc example_pool))
    1700030657 = Some true /\
  exists (nonce : Z) (tests : nat),
    (forall fuel, (tests <= fuel)%nat ->
       proofOfWork fuel 1700030657 example_pool = Return (nonce, 1700030657)) /\
    (forall fuel, (fuel < tests)%nat ->
       proofOfWork fuel 1700030657 example_pool = OutOfFuel) /\
    nonce = GoInt.wrap64 (Z.of_nat tests - 1) /\
    (forall k, 0 <= k < Z.of_nat tests - 1 ->
       isProofValid (mem example_pool) example_genesis (GoInt.wrap64 k)
         (Mempool (bc example_pool)) 1700030657 = Some false) /\
    isProofValid (mem example_pool) example_genesis nonce
      (Mempool (bc example_pool)) 1700030657 = Some true /\
    substring 0 4
      (calculateHash (mem example_pool)
         (candidate example_genesis nonce (Mempool (bc example_pool)) 1700030657))
      = "0000" /\
    nonce mod 2 ^ 64 <= 2 mod 2 ^ 64 /\
    (0 <= 2 ->
     0 <= nonce <= 2 /\
     forall k, 0 <= k < nonce ->
       isProofValid (mem example_pool) example_genesis k
         (Mempool (bc example_pool)) 1700030657 = Some false).
Proof.
  assert (Htip : last (Chain (bc example_pool)) = Some example_genesis)
    by (vm_compute; reflexivity).
  assert (Hr : GoInt.in_range 2)
    by (unfold GoInt.in_range, GoInt.min_int, GoInt.max_int; lia).
  assert (Hn : isProofValid (mem example_pool) example_genesis 2
                 (Mempool (bc example_pool)) 1700030657 = Some true)
    by (vm_compute; reflexivity).
  split; [exact Htip|]. split; [exact Hr|]. split; [exact Hn|].
  exact (proofOfWork_first_nonce example_pool 1700030657 example_genesis 2 Htip Hr Hn).
Defined.

(** C1 as stated fails over the signed nonces of the code: in the state in
    which [main] mines at 1700030657 the nonce -5609 passes [isProofValid],
    and [proofOfWork] returns 2 with any fuel that lets it return, the
    search starting at 0 and counting upwards. *)
Lemma smaller_negative_nonce :
  last (Chain (bc example_pool)) = Some example_genesis /\
  GoInt.in_range (-5609) /\
  isProofValid (mem example_pool) example_genesis (-5609)
    (Mempool (bc example_pool)) 1700030657 = Some true /\
  substring 0 4
    (calculateHash (mem example_pool)
       (candidate example_genesis (-5609) (Mempool (bc example_pool)) 1700030657))
    = "0000" /\
  proofOfWork 3 1700030657 example_pool = Return (2, 1700030657) /\
  (forall fuel nonce ts,
     proofOfWork fuel 1700030657 example_pool = Return (nonce, ts) -> nonce = 2) /\
  -5609 < 2.
Proof.
  assert (Htip : last (Chain (bc example_pool)) = Some example_genesis)
    by (vm_compute; reflexivity).
  split; [exact Htip|].
  split; [unfold GoInt.in_range, GoInt.min_int, GoInt.max_int; lia|].
  split; [vm_compute; reflexivity|].
  split; [vm_compute; reflexivity|].
  split; [vm_compute; reflexivity|].
  split; [|lia].
  intros fuel nonce ts H. unfold proofOfWork in H. rewrite Htip in H. cbv zeta in H.
  destruct (search_first (mem example_pool) example_genesis
              (Mempool (bc example_pool)) 1700030657 2) as [Hret Hout].
  - vm_compute. reflexivity.
  - intros [|[|j]] Hj; [vm_compute; reflexivity | vm_compute; reflexivity | lia].
  - destruct (Nat.lt_ge_cases 2 fuel) as [Hf | Hf].
    + rewrite (Hret fuel Hf) in H. now injection H as <- _.
    + rewrite (Hout fuel Hf) in H. discriminate.
Qed.

Lemma proofOfWork_terminates_witness :
  last (Chain (bc example_pool)) = Some example_genesis /\
  exists (tests : nat) (r : Z * Z),
    Z.of_nat tests <= 2 ^ 64 /\
    forall fuel, (tests <= fuel)%nat ->
      proofOfWork fuel 1700030657 example_pool = Return r.
Proof.
  assert (Htip : last (Chain (bc example_pool)) = Some example_genesis)
    by (vm_compute; reflexivity).
  split; [exact Htip|].
  apply (proofOfWork_terminates example_pool 1700030657 example_genesis Htip).
  exists 2. split.
  - unfold GoInt.in_range, GoInt.min_int, GoInt.max_int. lia.
  - vm_compute. reflexivity.
Defined.

(** ** Tampering *)

Section Tamper.

Lemma tx_string_sender (t t' : Transaction) :
  Recipient t' = Recipient t -> Amount t' = Amount t ->
  tx_string t' = tx_string t -> Sender t' = Sender t.
Proof.
  unfold tx_string. intros -> -> H. eapply append_inv_tail. exact H.
Qed.

Lemma tx_string_amount (t t' : Transaction) :
  Sender t' = Sender t -> Recipient t' = Recipient t ->
  tx_string t' = tx_string t ->
  Fmt.Sprintf_f (Amount t') = Fmt.Sprintf_f (Amount t).
Proof.
  unfold tx_string. intros -> -> H.
  now do 2 apply append_inv_head in H.
Qed.

Lemma txs_string_middle (l1 l2 : list Transaction) (t t' : Transaction) :
  txs_string (l1 ++ t' :: l2) = txs_string (l1 ++ t :: l2) ->
  tx_string t' = tx_string t.
Proof.
  rewrite !txs_string_app. intros H. apply append_inv_head in H.
  cbn [txs_string] in H. eapply append_inv_tail. exact H.
Qed.

(** Amounts with one rendering under [%f] give one hash. *)
Lemma same_rendering_same_hash (m m' : store) (b : Block)
    (l1 l2 : list Transaction) (t t' : Transaction) :
  elems m (Transactions b) = l1 ++ t :: l2 ->
  elems m' (Transactions b) = l1 ++ t' :: l2 ->
  Sender t' = Sender t -> Recipient t' = Recipient t ->
  Fmt.Sprintf_f (Amount t') = Fmt.Sprintf_f (Amount t) ->
  calculateHash m' b = calculateHash m b.
Proof.
  intros He He' Hs Hr Ha. rewrite !calculateHash_hashInput. unfold hashInput.
  rewrite He, He', !txs_string_app. cbn [txs_string]. unfold tx_string.
  now rewrite Hs, Hr, Ha.
Qed.

End Tamper.

(** C5, as the code has it: a change of the nonce, of the timestamp, of the
    sender of a transaction, or of the amount of a transaction to one that
    [%f] renders differently, changes the string that [calculateHash] feeds
    to SHA-256; the hash of the block then changes unless these two strings
    collide under SHA-256. *)
Theorem tamper_changes_hashInput (m m' : store) (b b' : Block) :
  tampered (fun a a' => Fmt.Sprintf_f a <> Fmt.Sprintf_f a') m b m' b' ->
  hashInput m b <> hashInput m' b' /\
  (calculateHash m b = calculateHash m' b' ->
   sha256_collision (hashInput m b) (hashInput m' b')).
Proof.
  intros Ht.
  assert (Hne : hashInput m b <> hashInput m' b').
  { intros E. unfold hashInput in E.
    destruct Ht as [(Hi & Hp & Hl) Hts He Hn | (Hi & Hp & Hl) Hn He Hts
                   | l1 l2 t t' (Hi & Hp & Hl) Hn Hts He He' Hr Ha Hs
                   | l1 l2 t t' (Hi & Hp & Hl) Hn Hts He He' Hs Hr Ha].
    - rewrite Hi, Hts, Hp, Hl, He in E.
      do 2 apply append_inv_head in E. apply append_inv_tail in E.
      apply Sprintf_d_inj in E. congruence.
    - rewrite Hi, Hn, Hp, Hl, He in E.
      apply append_inv_head in E. apply append_inv_tail in E.
      apply Sprintf_d_inj in E. congruence.
    - rewrite Hi, Hn, Hts, Hp, Hl, He, He' in E.
      do 5 apply append_inv_head in E. symmetry in E.
      apply txs_string_middle in E. now apply tx_string_sender in E.
    - rewrite Hi, Hn, Hts, Hp, Hl, He, He' in E.
      do 5 apply append_inv_head in E. symmetry in E.
      apply txs_string_middle in E. apply tx_string_amount in E; auto. }
  split; [exact Hne|].
  intros E. split; [exact Hne|].
  rewrite !calculateHash_hashInput in E.
  apply EncodeToString_inj in E; [exact E | apply Sum256_bytes..].
Qed.

(** Overwriting the committed amount 50 with 51 is such a change. *)
Lemma tamper_changes_hashInput_witness :
  tampered (fun a a' => Fmt.Sprintf_f a <> Fmt.Sprintf_f a')
    (mem example_chain) example_block
    (overwrite_amount (Float64.lit 51 0)) example_block /\
  hashInput (mem example_chain) example_block <>
  hashInput (overwrite_amount (Float64.lit 51 0)) example_block /\
  (calculateHash (mem example_chain) example_block =
   calculateHash (overwrite_amount (Float64.lit 51 0)) example_block ->
   sha256_collision (hashInput (mem example_chain) example_block)
     (hashInput (overwrite_amount (Float64.lit 51 0)) example_block)).
Proof.
  assert (Ht : tampered (fun a a' => Fmt.Sprintf_f a <> Fmt.Sprintf_f a')
                 (mem example_chain) example_block
                 (overwrite_amount (Float64.lit 51 0)) example_block).
  { eapply (tamper_amount _ _ _ _ _ [] _ _ _);
      [repeat split | reflexivity | reflexivity
       | vm_compute; reflexivity | vm_compute; reflexivity
       | reflexivity | reflexivity | vm_compute; discriminate]. }
  split; [exact Ht|].
  exact (tamper_changes_hashInput _ _ _ _ Ht).
Defined.

(** C5 as stated fails: in the chain of the example run, overwriting the
    committed amount 50 with the next [float64] changes one field of the
    second block and leaves its hash as it was, both amounts being rendered
    50.000000. *)
Lemma tamper_amount_unnoticed :
  Chain (bc example_chain) !! 1%nat = Some example_block /\
  Hash example_block = calculateHash (mem example_chain) example_block /\
  tampered (fun a a' => a <> a')
    (mem example_chain) example_block (overwrite_amount next_after_50) example_block /\
  calculateHash (overwrite_amount next_after_50) example_block =
  calculateHash (mem example_chain) example_block.
Proof.
  split; [vm_compute; reflexivity|].
  split; [vm_compute; reflexivity|].
  split.
  - eapply (tamper_amount _ _ _ _ _ [] _ _ _);
      [repeat split | reflexivity | reflexivity
       | vm_compute; reflexivity | vm_compute; reflexivity
       | reflexivity | reflexivity | vm_compute; discriminate].
  - vm_compute. reflexivity.
Qed.

(* ===================================================================== *)
(** * Part III: further properties of the operations *)
(* ===================================================================== *)

(** ** What [proofOfWork] returns, and when it panics *)

Section SearchSound.

Variables (m : store) (lastBlock : Block) (txs : slice) (ts : Z).

Local Abbreviation valid n := (isProofValid m lastBlock n txs ts).
Local Abbreviation search_from := (search m lastBlock txs ts).

Lemma search_no_panic (fuel : nat) (n : Z) : search_from fuel n <> Panic.
Proof.
  revert n. induction fuel as [|fuel IH]; intros n; [discriminate|].
  rewrite search_S. destruct (valid_cases m lastBlock txs ts n) as [E | E]; rewrite E.
  - discriminate.
  - apply IH.
Qed.

(** A returned nonce is the first that passes, counted from the start. *)
Lemma search_returns (fuel : nat) (z n : Z) :
  search_from fuel (GoInt.wrap64 z) = Return n ->
  exists j : nat,
    (j < fuel)%nat /\ n = GoInt.wrap64 (z + Z.of_nat j) /\
    valid n = Some true /\
    forall i : nat, (i < j)%nat -> valid (GoInt.wrap64 (z + Z.of_nat i)) = Some false.
Proof.
  revert z. induction fuel as [|fuel IH]; intros z H; [discriminate|].
  rewrite search_S in H.
  destruct (valid_cases m lastBlock txs ts (GoInt.wrap64 z)) as [E | E]; rewrite E in H.
  - injection H as <-. exists 0%nat. rewrite Z.add_0_r.
    repeat split; [lia | exact E | intros i Hi; lia].
  - rewrite incr_wrap64 in H. destruct (IH _ H) as (j & Hj & Hn & Hv & Hfail).
    exists (S j). split; [lia|]. split.
    { rewrite Hn. f_equal. lia. }
    split; [exact Hv|].
    intros [|i] Hi.
    + now rewrite Z.add_0_r.
    + replace (z + Z.of_nat (S i)) with (z + 1 + Z.of_nat i) by lia.
      apply Hfail. lia.
Qed.

End SearchSound.

Lemma pow_panic_empty (fuel : nat) (now : Z) (st : state) :
  proofOfWork fuel now st = Panic <-> Chain (bc st) = [].
Proof.
  unfold proofOfWork. split.
  - destruct (last (Chain (bc st))) as [tip|] eqn:Htip.
    + cbv zeta.
      pose proof (search_no_panic (mem st) tip (Mempool (bc st)) now fuel 0) as Hnp.
      destruct (search (mem st) tip (Mempool (bc st)) now fuel 0);
        [discriminate | contradiction | discriminate].
    + intros _. now apply last_None.
  - intros ->. reflexivity.
Qed.

(** X1: [proofOfWork] panics exactly on an empty chain, where
    [bc.Chain[len(bc.Chain)-1]] is out of range; nothing else in it can
    panic. *)
Theorem proofOfWork_panics_iff_empty (fuel : nat) (now : Z) (st : state) :
  proofOfWork fuel now st = Panic <-> Chain (bc st) = [].
Proof. apply pow_panic_empty. Qed.

Lemma pow_returns (fuel : nat) (now : Z) (st : state)
    (nonce ts : Z) :
  proofOfWork fuel now st = Return (nonce, ts) ->
  ts = now /\ GoInt.in_range nonce /\ nonce mod 2 ^ 64 < Z.of_nat fuel /\
  exists tip,
    last (Chain (bc st)) = Some tip /\
    isProofValid (mem st) tip nonce (Mempool (bc st)) now = Some true /\
    forall k, 0 <= k < nonce mod 2 ^ 64 ->
      isProofValid (mem st) tip (GoInt.wrap64 k) (Mempool (bc st)) now = Some false.
Proof.
  unfold proofOfWork. destruct (last (Chain (bc st))) as [tip|]; [|discriminate].
  cbv zeta.
  destruct (search (mem st) tip (Mempool (bc st)) now fuel 0) as [n| |] eqn:Hs;
    try discriminate.
  intros [= -> ->].
  change 0 with (GoInt.wrap64 0) in Hs.
  apply search_returns in Hs as (j & Hj & Hn & Hv & Hfail).
  rewrite Z.add_0_l in Hn.
  assert (Hlt : Z.of_nat j < 2 ^ 64).
  { destruct (Z.lt_ge_cases (Z.of_nat j) (2 ^ 64)) as [H | H]; [exact H|].
    specialize (Hfail (Z.to_nat (Z.of_nat j - 2 ^ 64)) ltac:(lia)).
    rewrite Z.add_0_l, Z2Nat.id in Hfail by lia.
    replace (GoInt.wrap64 (Z.of_nat j - 2 ^ 64)) with nonce in Hfail.
    - rewrite Hv in Hfail. discriminate.
    - rewrite Hn. unfold GoInt.wrap64.
      replace (Z.of_nat j - 2 ^ 64 + 2 ^ 63) with (Z.of_nat j + 2 ^ 63 + (-1) * 2 ^ 64) by lia.
      now rewrite Z.mod_add by (apply Z.pow_nonzero; lia). }
  assert (Hmod : nonce mod 2 ^ 64 = Z.of_nat j).
  { rewrite Hn, wrap64_mod. apply Z.mod_small. lia. }
  rewrite Hmod.
  split; [reflexivity|]. split; [rewrite Hn; apply wrap64_in_range|].
  split; [lia|].
  exists tip. split; [reflexivity|]. split; [exact Hv|].
  intros k Hk. specialize (Hfail (Z.to_nat k) ltac:(lia)).
  now rewrite Z.add_0_l, Z2Nat.id in Hfail by lia.
Qed.

(** X2: what [proofOfWork] returns is always a nonce in the range of [int]
    that passes [isProofValid] for the tip, the pool and the time read,
    paired with that time; every nonce that the search tested before it
    fails, and the fuel covers the tests.  So [proofOfWork] never returns
    when no nonce is valid. *)
Theorem proofOfWork_returns_valid (fuel : nat) (now : Z) (st : state)
    (nonce ts : Z) :
  proofOfWork fuel now st = Return (nonce, ts) ->
  ts = now /\ GoInt.in_range nonce /\ nonce mod 2 ^ 64 < Z.of_nat fuel /\
  exists tip,
    last (Chain (bc st)) = Some tip /\
    isProofValid (mem st) tip nonce (Mempool (bc st)) now = Some true /\
    forall k, 0 <= k < nonce mod 2 ^ 64 ->
      isProofValid (mem st) tip (GoInt.wrap64 k) (Mempool (bc st)) now = Some false.
Proof. apply pow_returns. Qed.

Lemma proofOfWork_returns_valid_witness :
  proofOfWork 3 1700030657 example_pool = Return (2, 1700030657) /\
  (1700030657 = 1700030657 /\ GoInt.in_range 2 /\ 2 mod 2 ^ 64 < Z.of_nat 3 /\
   exists tip,
     last (Chain (bc example_pool)) = Some tip /\
     isProofValid (mem example_pool) tip 2 (Mempool (bc example_pool)) 1700030657
       = Some true /\
     forall k, 0 <= k < 2 mod 2 ^ 64 ->
       isProofValid (mem example_pool) tip (GoInt.wrap64 k)
         (Mempool (bc example_pool)) 1700030657 = Some false).
Proof.
  assert (H : proofOfWork 3 1700030657 example_pool = Return (2, 1700030657))
    by (vm_compute; reflexivity).
  split; [exact H|].
  exact (proofOfWork_returns_valid 3 1700030657 example_pool 2 1700030657 H).
Defined.

(** ** Mining and committing *)

Section MineCommit.

Variable spare : nat -> nat -> nat.

Lemma linked_tip_index (c : list Block) (tip : Block) :
  chain_linked c -> last c = Some tip -> Index tip = Z.of_nat (length c) - 1.
Proof.
  intros (Hne & Hidx & _) Htip. rewrite last_lookup in Htip.
  apply Hidx in Htip. rewrite Htip. destruct c; [contradiction|]. simpl. lia.
Qed.

Lemma linked_tip_incr (c : list Block) (tip : Block) :
  chain_linked c -> Z.of_nat (length c) <= GoInt.max_int -> last c = Some tip ->
  GoInt.incr (Index tip) = Z.of_nat (length c).
Proof.
  intros Hl Hb Htip. rewrite (linked_tip_index c tip Hl Htip).
  unfold GoInt.incr. replace (Z.of_nat (length c) - 1 + 1) with (Z.of_nat (length c)) by lia.
  apply wrap64_id. unfold GoInt.in_range, GoInt.min_int, GoInt.max_int in *. lia.
Qed.

(** The hash that [addBlock] stores is the hash that [isProofValid] tests. *)
Lemma addBlock_hash_candidate (st : state) (nonce ts : Z) (tip : Block) :
  chain_linked (Chain (bc st)) ->
  Z.of_nat (length (Chain (bc st))) <= GoInt.max_int ->
  last (Chain (bc st)) = Some tip ->
  last (Chain (bc (addBlock nonce ts (Hash tip) st))) =
    Some (mkBlock (Z.of_nat (length (Chain (bc st)))) ts (Mempool (bc st)) nonce
            (Hash tip)
            (calculateHash (mem st) (candidate tip nonce (Mempool (bc st)) ts))).
Proof.
  intros Hl Hb Htip. unfold addBlock.
  cbn [bc Chain Index Timestamp Transactions Nonce PreviousHash].
  rewrite last_snoc. unfold candidate.
  now rewrite (linked_tip_incr _ _ Hl Hb Htip).
Qed.

Lemma prefix_valid (m : store) (tip : Block) (nonce : Z) (txs : slice) (ts : Z) :
  substring 0 4 (calculateHash m (candidate tip nonce txs ts)) = "0000" <->
  isProofValid m tip nonce txs ts = Some true.
Proof.
  rewrite isProofValid_candidate.
  remember (substring 0 4 (calculateHash m (candidate tip nonce txs ts))) as p eqn:Ep.
  clear Ep. split.
  - intros ->. reflexivity.
  - intros [= H]. now apply String.eqb_eq.
Qed.

Lemma step_no_panic (o : op) (st : state) :
  Chain (bc st) <> [] -> step spare o st <> Panic.
Proof.
  intros Hne. destruct o as [sender recipient amount | fuel now | nonce ts]; simpl.
  - discriminate.
  - destruct (proofOfWork fuel now st) eqn:Hp; try discriminate.
    apply pow_panic_empty in Hp. contradiction.
  - destruct (last (Chain (bc st))) eqn:Htip; [discriminate|].
    now apply last_None in Htip.
Qed.

End MineCommit.

(** X3: no call of a run that starts from [createBlockchain] panics: the
    tip that [proofOfWork] and the commit of [main] index is always there,
    and the slice in [isProofValid] is in bounds. *)
Theorem run_never_panics (spare : nat -> nat -> nat) (now : Z) (ops : list op) :
  run spare ops (createBlockchain now) <> Panic.
Proof.
  assert (H : forall st, chain_linked (Chain (bc st)) -> run spare ops st <> Panic).
  { induction ops as [|o ops IH]; intros st Hl; simpl; [discriminate|].
    destruct (step spare o st) as [st1| |] eqn:Hstep.
    - apply IH. eapply step_chain_linked; eassumption.
    - exfalso. apply (step_no_panic spare o st); [apply Hl | exact Hstep].
    - discriminate. }
  apply H. apply chain_linked_genesis. reflexivity.
Qed.

(** X4: [addBlock] checks nothing: in a linked chain (of a length that fits
    an [int]) the block it appends with the tip's hash stores the hash of
    the candidate that [isProofValid] tests for the same nonce and timestamp
    and the pool as it is at the commit.  So the committed hash starts with
    "0000" exactly when the nonce is valid for the pool at commit time,
    whatever pool the nonce was mined for. *)
Theorem committed_block_valid_iff (st : state) (nonce ts : Z) (tip : Block) :
  chain_linked (Chain (bc st)) ->
  Z.of_nat (length (Chain (bc st))) <= GoInt.max_int ->
  last (Chain (bc st)) = Some tip ->
  exists b,
    last (Chain (bc (addBlock nonce ts (Hash tip) st))) = Some b /\
    Hash b = calculateHash (mem st) (candidate tip nonce (Mempool (bc st)) ts) /\
    (substring 0 4 (Hash b) = "0000" <->
     isProofValid (mem st) tip nonce (Mempool (bc st)) ts = Some true).
Proof.
  intros Hl Hb Htip. eexists. split; [now apply addBlock_hash_candidate|].
  cbn [Hash]. split; [reflexivity | apply prefix_valid].
Qed.

Lemma committed_block_valid_iff_witness :
  chain_linked (Chain (bc example_pool)) /\
  Z.of_nat (length (Chain (bc example_pool))) <= GoInt.max_int /\
  last (Chain (bc example_pool)) = Some example_genesis /\
  exists b,
    last (Chain (bc (addBlock 7 1700030657 (Hash example_genesis) example_pool)))
      = Some b /\
    Hash b = calculateHash (mem example_pool)
               (candidate example_genesis 7 (Mempool (bc example_pool)) 1700030657) /\
    (substring 0 4 (Hash b) = "0000" <->
     isProofValid (mem example_pool) example_genesis 7 (Mempool (bc example_pool))
       1700030657 = Some true).
Proof.
  assert (Hl : chain_linked (Chain (bc example_pool))).
  { change (Chain (bc example_pool)) with [example_genesis].
    apply chain_linked_genesis. reflexivity. }
  assert (Hb : Z.of_nat (length (Chain (bc example_pool))) <= GoInt.max_int)
    by (vm_compute; discriminate).
  assert (Htip : last (Chain (bc example_pool)) = Some example_genesis)
    by (vm_compute; reflexivity).
  split; [exact Hl|]. split; [exact Hb|]. split; [exact Htip|].
  exact (committed_block_valid_iff example_pool 7 1700030657 example_genesis Hl Hb Htip).
Defined.

(** X5: mining and then committing, as [main] does, with nothing submitted
    in between: in a linked chain the block committed with the nonce and the
    timestamp that [proofOfWork] returned and the tip's hash has a hash that
    starts with "0000", and the chain stays linked. *)
Theorem mined_block_meets_target (st : state) (fuel : nat) (now nonce ts : Z)
    (tip : Block) :
  chain_linked (Chain (bc st)) ->
  Z.of_nat (length (Chain (bc st))) <= GoInt.max_int ->
  last (Chain (bc st)) = Some tip ->
  proofOfWork fuel now st = Return (nonce, ts) ->
  chain_linked (Chain (bc (addBlock nonce ts (Hash tip) st))) /\
  exists b,
    last (Chain (bc (addBlock nonce ts (Hash tip) st))) = Some b /\
    substring 0 4 (Hash b) = "0000" /\
    Nonce b = nonce /\ Timestamp b = now /\ PreviousHash b = Hash tip.
Proof.
  intros Hl Hb Htip Hpow.
  apply pow_returns in Hpow as (-> & _ & _ & tip' & Htip' & Hv & _).
  rewrite Htip in Htip'. injection Htip' as <-.
  split.
  - unfold addBlock. cbn [bc Chain].
    eapply chain_linked_snoc; [exact Hl | exact Htip | reflexivity | reflexivity].
  - eexists. split; [now apply addBlock_hash_candidate|].
    cbn [Hash Nonce Timestamp PreviousHash].
    split; [now apply prefix_valid|]. repeat split.
Qed.

Lemma mined_block_meets_target_witness :
  proofOfWork 3 1700030657 example_pool = Return (2, 1700030657) /\
  chain_linked
    (Chain (bc (addBlock 2 1700030657 (Hash example_genesis) example_pool))) /\
  exists b,
    last (Chain (bc (addBlock 2 1700030657 (Hash example_genesis) example_pool)))
      = Some b /\
    substring 0 4 (Hash b) = "0000" /\
    Nonce b = 2 /\ Timestamp b = 1700030657 /\ PreviousHash b = Hash example_genesis.
Proof.
  assert (Hl : chain_linked (Chain (bc example_pool))).
  { change (Chain (bc example_pool)) with [example_genesis].
    apply chain_linked_genesis. reflexivity. }
  assert (Hb : Z.of_nat (length (Chain (bc example_pool))) <= GoInt.max_int)
    by (vm_compute; discriminate).
  assert (Htip : last (Chain (bc example_pool)) = Some example_genesis)
    by (vm_compute; reflexivity).
  assert (Hpow : proofOfWork 3 1700030657 example_pool = Return (2, 1700030657))
    by (vm_compute; reflexivity).
  split; [exact Hpow|].
  exact (mined_block_meets_target example_pool 3 1700030657 2 1700030657
           example_genesis Hl Hb Htip Hpow).
Defined.

(** ** The pool in submission order, and [main] *)

Section Pool.

Variable spare : nat -> nat -> nat.

Lemma addTransaction_pool (sender recipient : string) (amount : Float64.float64)
    (st : state) :
  wf_slice (mem st) (Mempool (bc st)) = true ->
  let st' := (addTransaction spare sender recipient amount st).2 in
  wf_slice (mem st') (Mempool (bc st')) = true /\
  elems (mem st') (Mempool (bc st')) =
    elems (mem st) (Mempool (bc st)) ++ [submitted (sender, recipient, amount)].
Proof.
  intros Hwf. rewrite addTransaction_unfold. cbv zeta. cbn [snd mem bc Mempool].
  split; [now apply append_wf | now apply append_elems].
Qed.

Lemma addTransactions_pool (txs : list (string * string * Float64.float64))
    (st : state) :
  wf_slice (mem st) (Mempool (bc st)) = true ->
  let st' := addTransactions spare txs st in
  wf_slice (mem st') (Mempool (bc st')) = true /\
  Chain (bc st') = Chain (bc st) /\
  elems (mem st') (Mempool (bc st')) =
    elems (mem st) (Mempool (bc st)) ++ map submitted txs.
Proof.
  revert st. induction txs as [|[[sender recipient] amount] txs IH]; intros st Hwf.
  - cbv zeta. unfold addTransactions. simpl. rewrite app_nil_r. auto.
  - destruct (addTransaction_pool sender recipient amount st Hwf) as [Hwf1 He1].
    destruct (IH _ Hwf1) as (Hwf2 & Hc2 & He2).
    cbv zeta in *. unfold addTransactions in *.
    cbn [fold_left fst snd map] in *.
    split; [exact Hwf2|]. split.
    + rewrite Hc2. apply addTransaction_Chain.
    + rewrite He2, He1, <- app_assoc. reflexivity.
Qed.

End Pool.

(** X6: a block holds exactly the transactions submitted since the commit
    before it, in the order of submission, each with the id that
    [addTransaction] returned for it: after a commit, a series of
    submissions and a second commit, in any state, the pool before the
    second commit and the transactions of the new block are the list of the
    submissions. *)
Theorem commit_holds_submissions (spare : nat -> nat -> nat) (st : state)
    (nonce1 ts1 : Z) (ph1 : string)
    (txs : list (string * string * Float64.float64))
    (nonce2 ts2 : Z) (ph2 : string) :
  let st1 := addBlock nonce1 ts1 ph1 st in
  let st2 := addTransactions spare txs st1 in
  let st3 := addBlock nonce2 ts2 ph2 st2 in
  elems (mem st2) (Mempool (bc st2)) = map submitted txs /\
  exists b,
    last (Chain (bc st3)) = Some b /\
    elems (mem st3) (Transactions b) = map submitted txs /\
    len (Transactions b) = length txs /\
    elems (mem st3) (Mempool (bc st3)) = [].
Proof.
  cbv zeta.
  destruct (addTransactions_pool spare txs (addBlock nonce1 ts1 ph1 st)
              (wf_empty_slice _)) as (Hwf & _ & He).
  cbn [mem bc Mempool addBlock] in He.
  rewrite (elems_empty (mem st) empty_slice) in He by reflexivity.
  rewrite app_nil_l in He.
  set (st2 := addTransactions spare txs (addBlock nonce1 ts1 ph1 st)) in *.
  split.
  - exact He.
  - unfold addBlock.
    cbn [mem bc Chain Mempool Index Timestamp Transactions Nonce PreviousHash].
    eexists. split; [apply last_snoc|].
    cbn [Transactions]. split; [exact He|]. split; [|reflexivity].
    rewrite <- (wf_slice_length _ _ Hwf), He. apply length_map.
Qed.

Section MainRun.

Variable spare : nat -> nat -> nat.

(** The state of [main] when it starts to mine. *)
Lemma main_pool (t0 : Z) :
  let st0 := createBlockchain t0 in
  let st1 := snd (addTransaction spare "Alice" "Bob" (Float64.lit 50 0) st0) in
  let st2 := snd (addTransaction spare "Bob" "Charlie" (Float64.lit 25 0) st1) in
  Chain (bc st2) = Chain (bc st0) /\
  elems (mem st2) (Mempool (bc st2)) =
    [submitted ("Alice", "Bob", Float64.lit 50 0);
     submitted ("Bob", "Charlie", Float64.lit 25 0)].
Proof.
  cbv zeta.
  destruct (addTransaction_pool spare "Alice" "Bob" (Float64.lit 50 0)
              (createBlockchain t0) (wf_empty_slice _)) as [Hwf1 He1].
  destruct (addTransaction_pool spare "Bob" "Charlie" (Float64.lit 25 0) _ Hwf1)
    as [Hwf2 He2].
  cbv zeta in *. split.
  - now rewrite !addTransaction_Chain.
  - rewrite He2, He1. reflexivity.
Qed.

Lemma main_returns (fuel : nat) (t0 t1 : Z) (st : state) :
  main spare fuel t0 t1 = Return st ->
  exists g b,
    Chain (bc st) = [g; b] /\
    Index g = 0 /\ Timestamp g = t0 /\ Nonce g = 100 /\ PreviousHash g = "0" /\
    Index b = 1 /\ Timestamp b = t1 /\ PreviousHash b = Hash g /\
    Nonce b mod 2 ^ 64 < Z.of_nat fuel /\
    substring 0 4 (Hash b) = "0000" /\
    Hash b = calculateHash (mem st) b /\
    elems (mem st) (Transactions b) =
      [submitted ("Alice", "Bob", Float64.lit 50 0);
       submitted ("Bob", "Charlie", Float64.lit 25 0)] /\
    elems (mem st) (Mempool (bc st)) = [].
Proof.
  unfold main. cbv zeta.
  destruct (main_pool t0) as [Hc He]. cbv zeta in Hc, He.
  set (st2 := snd (addTransaction spare "Bob" "Charlie" (Float64.lit 25 0)
                     (snd (addTransaction spare "Alice" "Bob" (Float64.lit 50 0)
                             (createBlockchain t0))))) in *.
  destruct (proofOfWork fuel t1 st2) as [[nonce ts]| |] eqn:Hpow; try discriminate.
  assert (Hg : exists g, Chain (bc st2) = [g] /\ Index g = 0 /\ Timestamp g = t0 /\
                         Nonce g = 100 /\ PreviousHash g = "0").
  { rewrite Hc. unfold createBlockchain, createGenesisBlock.
    cbn [mem bc Chain Mempool Index Timestamp Transactions Nonce PreviousHash app].
    eexists. split; [reflexivity|]. repeat split. }
  destruct Hg as (g & Hchain & Hi & Ht & Hn & Hp).
  rewrite Hchain. cbn [last]. intros [= <-].
  apply pow_returns in Hpow as (-> & _ & Hfuel & tip & Htip & Hv & _).
  rewrite Hchain in Htip. injection Htip as <-.
  apply prefix_valid in Hv. unfold candidate in Hv.
  assert (Hincr : GoInt.incr (Index g) = 1) by (rewrite Hi; reflexivity).
  rewrite Hincr in Hv.
  unfold addBlock. rewrite Hchain.
  cbn [mem bc Chain Mempool Index Timestamp Transactions Nonce PreviousHash app length].
  change (Z.of_nat 1) with 1.
  exists g. eexists. split; [reflexivity|].
  cbn [Index Timestamp Transactions Nonce PreviousHash Hash].
  do 7 (split; [first [assumption | reflexivity]|]).
  split; [exact Hfuel|]. split; [exact Hv|].
  split; [apply calculateHash_ignores_Hash|].
  split; [exact He | reflexivity].
Qed.

End MainRun.

(** X7: whenever [main] returns, the chain has two blocks: the genesis
    block, created at the first reading of the clock, and a block with
    index 1, the second reading as timestamp, the hash of the genesis block
    as previous hash, a hash that starts with "0000" and is [calculateHash]
    of the block, and the transactions (Alice, Bob, 50) and (Bob, Charlie,
    25) in this order; the pool is empty. *)
Theorem main_end_to_end (spare : nat -> nat -> nat) (fuel : nat) (t0 t1 : Z)
    (st : state) :
  main spare fuel t0 t1 = Return st ->
  exists g b,
    Chain (bc st) = [g; b] /\
    Index g = 0 /\ Timestamp g = t0 /\ Nonce g = 100 /\ PreviousHash g = "0" /\
    Index b = 1 /\ Timestamp b = t1 /\ PreviousHash b = Hash g /\
    Nonce b mod 2 ^ 64 < Z.of_nat fuel /\
    substring 0 4 (Hash b) = "0000" /\
    Hash b = calculateHash (mem st) b /\
    elems (mem st) (Transactions b) =
      [submitted ("Alice", "Bob", Float64.lit 50 0);
       submitted ("Bob", "Charlie", Float64.lit 25 0)] /\
    elems (mem st) (Mempool (bc st)) = [].
Proof. apply main_returns. Qed.

Lemma main_end_to_end_witness :
  main doubling 3 1700000000 1700030657 = Return example_chain /\
  exists g b,
    Chain (bc example_chain) = [g; b] /\
    Index g = 0 /\ Timestamp g = 1700000000 /\ Nonce g = 100 /\ PreviousHash g = "0" /\
    Index b = 1 /\ Timestamp b = 1700030657 /\ PreviousHash b = Hash g /\
    Nonce b mod 2 ^ 64 < Z.of_nat 3 /\
    substring 0 4 (Hash b) = "0000" /\
    Hash b = calculateHash (mem example_chain) b /\
    elems (mem example_chain) (Transactions b) =
      [submitted ("Alice", "Bob", Float64.lit 50 0);
       submitted ("Bob", "Charlie", Float64.lit 25 0)] /\
    elems (mem example_chain) (Mempool (bc example_chain)) = [].
Proof.
  assert (H : main doubling 3 1700000000 1700030657 = Return example_chain)
    by (vm_compute; reflexivity).
  split; [exact H|].
  exact (main_end_to_end doubling 3 1700000000 1700030657 example_chain H).
Defined.

(** ** The chain only grows, and its stored hashes stay right *)

Section AppendOnly.

Variable spare : nat -> nat -> nat.

Lemma step_append_only (o : op) (st st' : state) :
  wf_state st = true -> separated st -> step spare o st = Return st' ->
  exists new,
    Chain (bc st') = Chain (bc st) ++ new /\
    length new = commits [o] /\
    Forall (fun b => Hash b = calculateHash (mem st') b) new /\
    Forall (fun b => elems (mem st') (Transactions b) = elems (mem st) (Transactions b))
           (Chain (bc st)).
Proof.
  intros Hwf Hsep Hstep.
  destruct o as [sender recipient amount | fuel now | nonce ts]; simpl in Hstep.
  - injection Hstep as <-.
    destruct (addTransaction_frozen spare sender recipient amount st Hwf Hsep)
      as (_ & _ & Hc & He).
    exists []. rewrite app_nil_r. repeat split; auto.
  - destruct (proofOfWork fuel now st); try discriminate. injection Hstep as <-.
    exists []. rewrite app_nil_r. repeat split; auto.
    apply Forall_forall. reflexivity.
  - destruct (last (Chain (bc st))) as [tip|]; [|discriminate].
    injection Hstep as <-. unfold addBlock.
    cbn [mem bc Chain Mempool Index Timestamp Transactions Nonce PreviousHash].
    eexists. split; [reflexivity|]. split; [reflexivity|]. split.
    + constructor; [|constructor]. cbn [Hash]. apply calculateHash_ignores_Hash.
    + apply Forall_forall. reflexivity.
Qed.

Lemma run_grows (ops : list op) (st st' : state) :
  wf_state st = true -> separated st -> run spare ops st = Return st' ->
  exists new,
    Chain (bc st') = Chain (bc st) ++ new /\
    length new = commits ops /\
    Forall (fun b => elems (mem st') (Transactions b) = elems (mem st) (Transactions b))
           (Chain (bc st)).
Proof.
  revert st. induction ops as [|o ops IH]; intros st Hwf Hsep Hrun; simpl in Hrun.
  - injection Hrun as <-. exists []. rewrite app_nil_r.
    repeat split; auto. apply Forall_forall. reflexivity.
  - destruct (step spare o st) as [st1| |] eqn:Hstep; try discriminate.
    destruct (step_wf spare _ _ _ Hwf Hsep Hstep) as [Hwf1 Hsep1].
    destruct (step_append_only _ _ _ Hwf Hsep Hstep) as (new1 & Hc1 & Hl1 & _ & He1).
    destruct (IH st1 Hwf1 Hsep1 Hrun) as (new2 & Hc2 & Hl2 & He2).
    exists (new1 ++ new2). split; [rewrite Hc2, Hc1; now rewrite app_assoc|].
    split.
    { rewrite length_app, Hl1, Hl2. destruct o; reflexivity. }
    rewrite Hc1 in He2. apply Forall_app in He2 as [He2 _].
    rewrite Forall_forall in *. intros b Hb. now rewrite (He2 b Hb), (He1 b Hb).
Qed.

Lemma run_hashes_aux (ops : list op) (st st' : state) :
  wf_state st = true -> separated st -> run spare ops st = Return st' ->
  Forall (fun b => Hash b = calculateHash (mem st) b) (Chain (bc st)) ->
  Forall (fun b => Hash b = calculateHash (mem st') b) (Chain (bc st')).
Proof.
  revert st. induction ops as [|o ops IH]; intros st Hwf Hsep Hrun Hh; simpl in Hrun.
  - now injection Hrun as <-.
  - destruct (step spare o st) as [st1| |] eqn:Hstep; try discriminate.
    destruct (step_wf spare _ _ _ Hwf Hsep Hstep) as [Hwf1 Hsep1].
    destruct (step_append_only _ _ _ Hwf Hsep Hstep) as (new1 & Hc1 & _ & Hn1 & He1).
    apply (IH st1 Hwf1 Hsep1 Hrun).
    rewrite Hc1. apply Forall_app. split; [|exact Hn1].
    rewrite Forall_forall in *. intros b Hb. rewrite (Hh b Hb).
    apply calculateHash_elems. symmetry. now apply He1.
Qed.

End AppendOnly.

(** X8: the chain is append-only.  A run from a well-formed, separated
    state (such as every state of a run from [createBlockchain]) leaves the
    blocks it found in place and in order, adds one block per commit at the
    end and none otherwise, and every block it found reads the same
    transactions and hashes the same afterwards. *)
Theorem run_append_only (spare : nat -> nat -> nat) (ops : list op)
    (st st' : state) :
  wf_state st = true -> separated st ->
  run spare ops st = Return st' ->
  exists new,
    Chain (bc st') = Chain (bc st) ++ new /\
    length new = commits ops /\
    Forall (fun b =>
              elems (mem st') (Transactions b) = elems (mem st) (Transactions b) /\
              calculateHash (mem st') b = calculateHash (mem st) b)
           (Chain (bc st)).
Proof.
  intros Hwf Hsep Hrun.
  destruct (run_grows spare ops st st' Hwf Hsep Hrun)
    as (new & Hc & Hl & He).
  exists new. split; [exact Hc|]. split; [exact Hl|].
  eapply Forall_impl; [exact He|].
  intros b Hb. split; [exact Hb | now apply calculateHash_elems].
Qed.

Lemma run_append_only_witness :
  wf_state example_pool = true /\
  run doubling [ProofOfWork 3 1700030657; CommitBlock 2 1700030657;
                AppendTransaction "Carol" "Dave" (Float64.lit 1 0)] example_pool
    = Return (snd (addTransaction doubling "Carol" "Dave" (Float64.lit 1 0)
                     example_chain)) /\
  exists new,
    Chain (bc (snd (addTransaction doubling "Carol" "Dave" (Float64.lit 1 0)
                      example_chain))) = Chain (bc example_pool) ++ new /\
    length new = commits [ProofOfWork 3 1700030657; CommitBlock 2 1700030657;
                          AppendTransaction "Carol" "Dave" (Float64.lit 1 0)] /\
    Forall (fun b =>
              elems (mem (snd (addTransaction doubling "Carol" "Dave"
                                 (Float64.lit 1 0) example_chain)))
                    (Transactions b) = elems (mem example_pool) (Transactions b) /\
              calculateHash (mem (snd (addTransaction doubling "Carol" "Dave"
                                         (Float64.lit 1 0) example_chain))) b
                = calculateHash (mem example_pool) b)
           (Chain (bc example_pool)).
Proof.
  assert (Hwf : wf_state example_pool = true) by (vm_compute; reflexivity).
  assert (Hsep : separated example_pool).
  { unfold separated. change (Chain (bc example_pool)) with [example_genesis].
    constructor; [left; reflexivity | constructor]. }
  assert (Hrun : run doubling [ProofOfWork 3 1700030657; CommitBlock 2 1700030657;
                   AppendTransaction "Carol" "Dave" (Float64.lit 1 0)] example_pool
                 = Return (snd (addTransaction doubling "Carol" "Dave" (Float64.lit 1 0)
                                  example_chain)))
    by (vm_compute; reflexivity).
  split; [exact Hwf|]. split; [exact Hrun|].
  exact (run_append_only doubling _ _ _ Hwf Hsep Hrun).
Defined.

(** X9: in every state of a run from [createBlockchain], the stored hash of
    every block is [calculateHash] of the block as it reads now: no call
    changes what a committed block hashes to. *)
Theorem reachable_hashes_match (spare : nat -> nat -> nat) (now : Z)
    (ops : list op) (st : state) :
  run spare ops (createBlockchain now) = Return st ->
  Forall (fun b => Hash b = calculateHash (mem st) b) (Chain (bc st)).
Proof.
  intros Hrun.
  destruct (createBlockchain_wf now) as [Hwf Hsep].
  assert (Hh : Forall (fun b => Hash b = calculateHash (mem (createBlockchain now)) b)
                 (Chain (bc (createBlockchain now)))).
  { unfold createBlockchain, createGenesisBlock.
    cbn [mem bc Chain Mempool Index Timestamp Transactions Nonce PreviousHash app].
    constructor; [|constructor]. cbn [Hash]. apply calculateHash_ignores_Hash. }
  exact (run_hashes_aux spare ops _ st Hwf Hsep Hrun Hh).
Qed.

Lemma reachable_hashes_match_witness :
  run doubling example_ops (createBlockchain 1700000000) = Return example_chain /\
  Forall (fun b => Hash b = calculateHash (mem example_chain) b)
         (Chain (bc example_chain)).
Proof.
  assert (Hrun : run doubling example_ops (createBlockchain 1700000000) =
                 Return example_chain) by (vm_compute; reflexivity).
  split; [exact Hrun|].
  exact (reachable_hashes_match doubling 1700000000 example_ops example_chain Hrun).
Defined.

(** ** What the hashes do not tell apart, and what they do *)

Section Ambiguity.

Lemma generateTransactionID_tx_string (tx : Transaction) :
  generateTransactionID tx =
  Hex.EncodeToString (Sha256.Sum256 (Bytes.of_string (tx_string tx))).
Proof. reflexivity. Qed.

Lemma tx_string_shift (s x r : string) (a : Float64.float64) (id id' : string) :
  tx_string (mkTransaction (s ++ x) r a id) = tx_string (mkTransaction s (x ++ r) a id').
Proof.
  unfold tx_string. cbn [Sender Recipient Amount]. now rewrite !append_assoc.
Qed.

Lemma append_neq_self (s x : string) : x <> "" -> (s ++ x)%string <> s.
Proof.
  intros Hx E. apply Hx. apply (append_inv_head s).
  now rewrite append_nil_r.
Qed.

Lemma txs_string_hashed_fields (l l' : list Transaction) :
  map hashed_fields l' = map hashed_fields l -> txs_string l' = txs_string l.
Proof.
  revert l'. induction l as [|t l IH]; intros [|t' l'] H; try discriminate;
    [reflexivity|].
  cbn [map] in H. unfold hashed_fields at 1 3 in H.
  injection H as Hs Hr Ha Hl. cbn [txs_string].
  rewrite (IH _ Hl). unfold tx_string. now rewrite Hs, Hr, Ha.
Qed.

Lemma substring_0_0 (s : string) : substring 0 0 s = "".
Proof. now destruct s. Qed.

Lemma digit_zero (i : Z) : 0 <= i < 16 -> Hex.digit i = "0"%char <-> i = 0.
Proof.
  intros Hi. split.
  - intros E. apply digit_inj; [exact Hi | lia | exact E].
  - intros ->. reflexivity.
Qed.

Lemma byte_zero (v : Z) :
  is_byte v -> Z.shiftr v 4 = 0 /\ Z.land v 0x0f = 0 <-> v = 0.
Proof.
  intros Hv. split.
  - intros [H1 H2]. now apply nibbles_inj.
  - intros ->. split; reflexivity.
Qed.

Lemma hex_prefix_zero (b0 b1 : Z) (rest : list Z) :
  is_byte b0 -> is_byte b1 ->
  substring 0 4 (Hex.EncodeToString (b0 :: b1 :: rest)) = "0000" <->
  b0 = 0 /\ b1 = 0.
Proof.
  intros H0 H1. cbn [Hex.EncodeToString substring]. rewrite substring_0_0.
  rewrite <- (byte_zero b0 H0), <- (byte_zero b1 H1).
  rewrite <- (digit_zero (Z.shiftr b0 4)) by now apply high_nibble.
  rewrite <- (digit_zero (Z.land b0 0x0f)) by apply low_nibble.
  rewrite <- (digit_zero (Z.shiftr b1 4)) by now apply high_nibble.
  rewrite <- (digit_zero (Z.land b1 0x0f)) by apply low_nibble.
  split.
  - intros [= -> -> -> ->]. auto.
  - intros [[-> ->] [-> ->]]. reflexivity.
Qed.

End Ambiguity.

(** X10: the transaction id does not tell where the sender ends and the
    recipient begins: moving a non-empty end of the sender to the front of
    the recipient gives another transaction with the same id, the format
    [%s%s%f] having no separator. *)
Theorem sender_recipient_boundary (s x r : string) (a : Float64.float64)
    (id id' : string) :
  x <> "" ->
  Sender (mkTransaction (s ++ x) r a id) <> Sender (mkTransaction s (x ++ r) a id') /\
  generateTransactionID (mkTransaction (s ++ x) r a id) =
  generateTransactionID (mkTransaction s (x ++ r) a id').
Proof.
  intros Hx. split.
  - cbn [Sender]. now apply append_neq_self.
  - rewrite !generateTransactionID_tx_string. now rewrite (tx_string_shift s x r a id id').
Qed.

Lemma sender_recipient_boundary_witness :
  "ice" <> "" /\
  Sender (mkTransaction ("Al" ++ "ice") "Bob" (Float64.lit 50 0) "") <>
  Sender (mkTransaction "Al" ("ice" ++ "Bob") (Float64.lit 50 0) "") /\
  generateTransactionID (mkTransaction ("Al" ++ "ice") "Bob" (Float64.lit 50 0) "") =
  generateTransactionID (mkTransaction "Al" ("ice" ++ "Bob") (Float64.lit 50 0) "").
Proof.
  assert (Hx : "ice" <> "") by discriminate.
  split; [exact Hx|].
  exact (sender_recipient_boundary "Al" "ice" "Bob" (Float64.lit 50 0) "" "" Hx).
Defined.

(** X11: the block hash covers the sender, the recipient and the amount of
    each transaction, not its stored id: two readings of a block whose
    transactions agree on these three fields hash the same, whatever the
    [TXID] fields hold. *)
Theorem calculateHash_ignores_TXID (m m' : store) (b : Block) :
  map hashed_fields (elems m' (Transactions b)) =
  map hashed_fields (elems m (Transactions b)) ->
  calculateHash m' b = calculateHash m b.
Proof.
  intros H. rewrite !calculateHash_hashInput. unfold hashInput.
  now rewrite (txs_string_hashed_fields _ _ H).
Qed.

Lemma calculateHash_ignores_TXID_witness :
  elems (overwrite_txid "forged") (Transactions example_block) <>
  elems (mem example_chain) (Transactions example_block) /\
  map hashed_fields (elems (overwrite_txid "forged") (Transactions example_block)) =
  map hashed_fields (elems (mem example_chain) (Transactions example_block)) /\
  calculateHash (overwrite_txid "forged") example_block =
  calculateHash (mem example_chain) example_block.
Proof.
  assert (H : map hashed_fields
                (elems (overwrite_txid "forged") (Transactions example_block)) =
              map hashed_fields
                (elems (mem example_chain) (Transactions example_block)))
    by (vm_compute; reflexivity).
  split; [vm_compute; discriminate|]. split; [exact H|].
  exact (calculateHash_ignores_TXID (mem example_chain) (overwrite_txid "forged")
           example_block H).
Defined.

(** X12: the difficulty is 16 bits: [isProofValid] holds exactly when the
    first two bytes of the SHA-256 digest of the candidate's hash input are
    zero. *)
Theorem isProofValid_iff_two_zero_bytes (m : store) (lastBlock : Block)
    (nonce : Z) (txs : slice) (ts : Z) :
  isProofValid m lastBlock nonce txs ts = Some true <->
  take 2 (Sha256.Sum256
            (Bytes.of_string (hashInput m (candidate lastBlock nonce txs ts))))
    = [0; 0].
Proof.
  rewrite <- prefix_valid, calculateHash_hashInput.
  pose proof (Sum256_length
                (Bytes.of_string (hashInput m (candidate lastBlock nonce txs ts)))) as Hlen.
  pose proof (Sum256_bytes
                (Bytes.of_string (hashInput m (candidate lastBlock nonce txs ts)))) as Hb.
  remember (Sha256.Sum256 _) as d eqn:Ed. clear Ed.
  destruct d as [|b0 [|b1 rest]]; try discriminate.
  apply Forall_cons in Hb as [H0 Hb]. apply Forall_cons in Hb as [H1 _].
  rewrite (hex_prefix_zero b0 b1 rest H0 H1). cbn [take]. split.
  - intros [-> ->]. reflexivity.
  - intros [= -> ->]. auto.
Qed.

Section Boundaries.

Lemma string_of_revapp (d acc : Decimal.uint) :
  NilEmpty.string_of_uint (Decimal.revapp d acc) =
  (NilEmpty.string_of_uint (Decimal.rev d) ++ NilEmpty.string_of_uint acc)%string.
Proof.
  revert acc. unfold Decimal.rev.
  induction d as [|d IH|d IH|d IH|d IH|d IH|d IH|d IH|d IH|d IH|d IH];
    intros acc; cbn [Decimal.revapp]; [reflexivity|..];
    rewrite IH, (IH (_ Decimal.Nil)), append_assoc; reflexivity.
Qed.

Lemma to_uint_tenfold (p : positive) :
  NilEmpty.string_of_uint (Pos.to_uint (10 * p)) =
  (NilEmpty.string_of_uint (Pos.to_uint p) ++ "0")%string.
Proof.
  pose proof (DecimalPos.Unsigned.to_ldec_tenfold p) as H.
  change (10 * N.pos p)%N with (N.pos (10 * p)) in H.
  unfold DecimalPos.Unsigned.to_lu in H.
  unfold Pos.to_uint. rewrite H. unfold Decimal.rev at 1.
  cbn [Decimal.revapp]. now rewrite string_of_revapp.
Qed.

(** [%d] of ten times a number is [%d] of the number followed by 0. *)
Lemma Sprintf_d_tenfold (n : Z) :
  n <> 0 -> Fmt.Sprintf_d (10 * n) = (Fmt.Sprintf_d n ++ "0")%string.
Proof.
  intros Hn. unfold Fmt.Sprintf_d. destruct n as [|p|p]; [contradiction|..].
  - change (10 * Z.pos p) with (Z.pos (10 * p)).
    cbn [Z.to_int NilEmpty.string_of_int]. apply to_uint_tenfold.
  - change (10 * Z.neg p) with (Z.neg (10 * p)).
    cbn [Z.to_int NilEmpty.string_of_int]. now rewrite to_uint_tenfold.
Qed.

End Boundaries.

(** X13: the block hash does not tell where the nonce ends and the previous
    hash begins: a block with nonce [10 * n] and previous hash [p] hashes
    like the block with nonce [n] and previous hash ["0" ++ p], the format
    [%d%d%d%s%d] having no separator.  So a block with nonce 1000 and an
    empty previous hash hashes like the genesis block. *)
Theorem nonce_previous_hash_boundary (m : store) (i t n : Z) (txs : slice)
    (p h h' : string) :
  n <> 0 ->
  Nonce (mkBlock i t txs (10 * n) p h) <> Nonce (mkBlock i t txs n ("0" ++ p) h') /\
  calculateHash m (mkBlock i t txs (10 * n) p h) =
  calculateHash m (mkBlock i t txs n ("0" ++ p) h').
Proof.
  intros Hn. split; [cbn [Nonce]; lia|].
  rewrite !calculateHash_hashInput. unfold hashInput.
  cbn [Index Timestamp Transactions Nonce PreviousHash].
  rewrite (Sprintf_d_tenfold n Hn). now rewrite !append_assoc.
Qed.

Lemma nonce_previous_hash_boundary_witness :
  100 <> 0 /\
  Nonce (mkBlock 0 1700000000 empty_slice (10 * 100) "" "") <>
  Nonce (mkBlock 0 1700000000 empty_slice 100 ("0" ++ "") (Hash example_genesis)) /\
  calculateHash (mem example_chain) (mkBlock 0 1700000000 empty_slice (10 * 100) "" "") =
  calculateHash (mem example_chain)
    (mkBlock 0 1700000000 empty_slice 100 ("0" ++ "") (Hash example_genesis)).
Proof.
  assert (Hn : 100 <> 0) by discriminate.
  split; [exact Hn|].
  exact (nonce_previous_hash_boundary (mem example_chain) 0 1700000000 100
           empty_slice "" "" (Hash example_genesis) Hn).
Defined.

(** X14: the other hashed fields bind as well: changing the index, the
    previous hash, or the recipient of a transaction, all else fixed,
    changes the string that [calculateHash] feeds to SHA-256; the hash then
    changes unless these two strings collide under SHA-256. *)
Theorem rewrite_changes_hashInput (m m' : store) (b b' : Block) :
  rewritten m b m' b' ->
  hashInput m b <> hashInput m' b' /\
  (calculateHash m b = calculateHash m' b' ->
   sha256_collision (hashInput m b) (hashInput m' b')).
Proof.
  intros Hr.
  assert (Hne : hashInput m b <> hashInput m' b').
  { intros E. unfold hashInput in E.
    destruct Hr as [Hts Hn Hp Hl He Hi | Hi Hts Hn Hl He Hp
                   | l1 l2 t t' (Hi & Hp & Hl) Hn Hts He He' Hs Ha Hrc].
    - rewrite Hts, Hn, Hp, Hl, He in E. apply append_inv_tail in E.
      apply Sprintf_d_inj in E. congruence.
    - rewrite Hi, Hts, Hn, Hl, He in E.
      do 3 apply append_inv_head in E. apply append_inv_tail in E. congruence.
    - rewrite Hi, Hn, Hts, Hp, Hl, He, He' in E.
      do 5 apply append_inv_head in E. symmetry in E.
      apply txs_string_middle in E. unfold tx_string in E.
      rewrite Hs, Ha in E. apply append_inv_head in E.
      apply append_inv_tail in E. congruence. }
  split; [exact Hne|].
  intros E. split; [exact Hne|].
  rewrite !calculateHash_hashInput in E.
  apply EncodeToString_inj in E; [exact E | apply Sum256_bytes..].
Qed.

Lemma rewrite_changes_hashInput_witness :
  rewritten (mem example_chain) example_block (mem example_chain)
    (mkBlock 1 1700030657 (mkSlice 2 2 2) 2 "00" (Hash example_block)) /\
  hashInput (mem example_chain) example_block <>
  hashInput (mem example_chain)
    (mkBlock 1 1700030657 (mkSlice 2 2 2) 2 "00" (Hash example_block)) /\
  (calculateHash (mem example_chain) example_block =
   calculateHash (mem example_chain)
     (mkBlock 1 1700030657 (mkSlice 2 2 2) 2 "00" (Hash example_block)) ->
   sha256_collision (hashInput (mem example_chain) example_block)
     (hashInput (mem example_chain)
        (mkBlock 1 1700030657 (mkSlice 2 2 2) 2 "00" (Hash example_block)))).
Proof.
  assert (Hr : rewritten (mem example_chain) example_block (mem example_chain)
                 (mkBlock 1 1700030657 (mkSlice 2 2 2) 2 "00" (Hash example_block))).
  { apply rewrite_previous; try reflexivity. discriminate. }
  split; [exact Hr|].
  exact (rewrite_changes_hashInput _ _ _ _ Hr).
Defined.

(** ** What the search depends on *)

Section Snapshot.

Lemma hashInput_content (m1 m2 : store) (b1 b2 : Block) :
  wf_slice m1 (Transactions b1) = true ->
  wf_slice m2 (Transactions b2) = true ->
  Index b1 = Index b2 -> Timestamp b1 = Timestamp b2 -> Nonce b1 = Nonce b2 ->
  PreviousHash b1 = PreviousHash b2 ->
  elems m1 (Transactions b1) = elems m2 (Transactions b2) ->
  hashInput m1 b1 = hashInput m2 b2.
Proof.
  intros Hwf1 Hwf2 Hi Ht Hn Hp He. unfold hashInput.
  rewrite <- (wf_slice_length _ _ Hwf1), <- (wf_slice_length _ _ Hwf2).
  now rewrite Hi, Ht, Hn, Hp, He.
Qed.

Lemma isProofValid_content (m1 m2 : store) (tip1 tip2 : Block) (pool1 pool2 : slice)
    (nonce ts : Z) :
  wf_slice m1 pool1 = true -> wf_slice m2 pool2 = true ->
  Index tip1 = Index tip2 -> Hash tip1 = Hash tip2 ->
  elems m1 pool1 = elems m2 pool2 ->
  isProofValid m1 tip1 nonce pool1 ts = isProofValid m2 tip2 nonce pool2 ts.
Proof.
  intros Hwf1 Hwf2 Hi Hh He. rewrite !isProofValid_candidate, !calculateHash_hashInput.
  rewrite (hashInput_content m1 m2 (candidate tip1 nonce pool1 ts)
             (candidate tip2 nonce pool2 ts)); try assumption; try reflexivity.
  unfold candidate. cbn [Index]. now rewrite Hi.
Qed.

Lemma search_content (m1 m2 : store) (tip1 tip2 : Block) (pool1 pool2 : slice)
    (ts : Z) (fuel : nat) (nonce : Z) :
  wf_slice m1 pool1 = true -> wf_slice m2 pool2 = true ->
  Index tip1 = Index tip2 -> Hash tip1 = Hash tip2 ->
  elems m1 pool1 = elems m2 pool2 ->
  search m1 tip1 pool1 ts fuel nonce = search m2 tip2 pool2 ts fuel nonce.
Proof.
  intros Hwf1 Hwf2 Hi Hh He. revert nonce.
  induction fuel as [|fuel IH]; intros nonce; [reflexivity|].
  rewrite !search_S.
  rewrite (isProofValid_content m1 m2 tip1 tip2 pool1 pool2 nonce ts) by assumption.
  destruct (isProofValid m2 tip2 nonce pool2 ts) as [[|]|]; auto.
Qed.

End Snapshot.

(** X15: the search is a function of the snapshot alone: two states whose
    tips have the same index and the same stored hash and whose pools hold
    the same transactions give the same result of [proofOfWork] at the same
    reading of the clock and the same fuel, whatever the rest of their
    chains, the other fields of their tips and the addresses and capacities
    of their pools. *)
Theorem proofOfWork_snapshot (fuel : nat) (now : Z) (st1 st2 : state)
    (tip1 tip2 : Block) :
  wf_slice (mem st1) (Mempool (bc st1)) = true ->
  wf_slice (mem st2) (Mempool (bc st2)) = true ->
  last (Chain (bc st1)) = Some tip1 ->
  last (Chain (bc st2)) = Some tip2 ->
  Index tip1 = Index tip2 -> Hash tip1 = Hash tip2 ->
  elems (mem st1) (Mempool (bc st1)) = elems (mem st2) (Mempool (bc st2)) ->
  proofOfWork fuel now st1 = proofOfWork fuel now st2.
Proof.
  intros Hwf1 Hwf2 Ht1 Ht2 Hi Hh He. unfold proofOfWork. rewrite Ht1, Ht2. cbv zeta.
  now rewrite (search_content (mem st1) (mem st2) tip1 tip2 _ _ now fuel 0
                 Hwf1 Hwf2 Hi Hh He).
Qed.

Lemma proofOfWork_snapshot_witness :
  Mempool (bc example_pool) <> Mempool (bc example_pool_slack) /\
  elems (mem example_pool) (Mempool (bc example_pool)) =
  elems (mem example_pool_slack) (Mempool (bc example_pool_slack)) /\
  proofOfWork 3 1700030657 example_pool = proofOfWork 3 1700030657 example_pool_slack.
Proof.
  split; [vm_compute; discriminate|].
  assert (He : elems (mem example_pool) (Mempool (bc example_pool)) =
               elems (mem example_pool_slack) (Mempool (bc example_pool_slack)))
    by (vm_compute; reflexivity).
  split; [exact He|].
  apply (proofOfWork_snapshot 3 1700030657 example_pool example_pool_slack
           example_genesis example_genesis);
    first [exact He | vm_compute; reflexivity].
Defined.

(** ** A submission between the search and the commit *)

Section LateSubmission.

Variable spare : nat -> nat -> nat.

Lemma Sprintf_d_of_N (n : N) :
  Fmt.Sprintf_d (Z.of_N n) =
  NilEmpty.string_of_uint (Decimal.rev (DecimalPos.Unsigned.to_lu n)).
Proof. destruct n; reflexivity. Qed.

Lemma length_string_rev_succ (d : Decimal.uint) :
  (String.length (NilEmpty.string_of_uint (Decimal.rev d)) <=
   String.length (NilEmpty.string_of_uint (Decimal.rev (Decimal.Little.succ d))))%nat.
Proof.
  unfold Decimal.rev.
  induction d as [|d IH|d IH|d IH|d IH|d IH|d IH|d IH|d IH|d IH|d IH];
    cbn [Decimal.Little.succ Decimal.revapp];
    rewrite ?(string_of_revapp _ (_ Decimal.Nil)), ?length_append;
    unfold Decimal.rev; simpl; lia.
Qed.

Lemma Sprintf_d_length_succ (k : nat) :
  (String.length (Fmt.Sprintf_d (Z.of_nat k)) <=
   String.length (Fmt.Sprintf_d (Z.of_nat (S k))))%nat.
Proof.
  rewrite <- !nat_N_Z, Nat2N.inj_succ, !Sprintf_d_of_N.
  rewrite DecimalPos.Unsigned.to_lu_succ. apply length_string_rev_succ.
Qed.

Lemma Sprintf_f_nonempty (x : Float64.float64) :
  (0 < String.length (Fmt.Sprintf_f x))%nat.
Proof.
  unfold Fmt.Sprintf_f. destruct (Float64.decode x) as [|[|]|neg mant exp];
    try (simpl; lia).
  rewrite !length_append. simpl. lia.
Qed.

Lemma tx_string_nonempty (tx : Transaction) : (0 < String.length (tx_string tx))%nat.
Proof.
  unfold tx_string. rewrite !length_append.
  pose proof (Sprintf_f_nonempty (Amount tx)). lia.
Qed.

Lemma append_len (m : store) (s : slice) (x : Transaction) :
  len (append spare m s x).2 = S (len s).
Proof. unfold append. now destruct (len s <? cap s)%nat. Qed.

(** One more transaction makes the hash input longer. *)
Lemma hashInput_longer (m m' : store) (tip : Block) (nonce ts : Z)
    (pool pool' : slice) (tx : Transaction) :
  len pool' = S (len pool) -> elems m' pool' = elems m pool ++ [tx] ->
  hashInput m' (candidate tip nonce pool' ts) <> hashInput m (candidate tip nonce pool ts).
Proof.
  intros Hl He E. apply (f_equal String.length) in E.
  unfold hashInput, candidate in E.
  cbn [Index Timestamp Transactions Nonce PreviousHash] in E.
  rewrite Hl, He, txs_string_app in E. cbn [txs_string] in E.
  rewrite append_nil_r, !length_append in E.
  pose proof (Sprintf_d_length_succ (len pool)).
  pose proof (tx_string_nonempty tx). lia.
Qed.

Lemma late_submission (st : state) (nonce ts : Z) (tip : Block)
    (sender recipient : string) (amount : Float64.float64) :
  wf_slice (mem st) (Mempool (bc st)) = true ->
  chain_linked (Chain (bc st)) ->
  Z.of_nat (length (Chain (bc st))) <= GoInt.max_int ->
  last (Chain (bc st)) = Some tip ->
  let st' := (addTransaction spare sender recipient amount st).2 in
  exists b,
    last (Chain (bc (addBlock nonce ts (Hash tip) st'))) = Some b /\
    elems (mem st') (Transactions b) =
      elems (mem st) (Mempool (bc st)) ++ [submitted (sender, recipient, amount)] /\
    Hash b = calculateHash (mem st') (candidate tip nonce (Mempool (bc st')) ts) /\
    hashInput (mem st') (candidate tip nonce (Mempool (bc st')) ts) <>
    hashInput (mem st) (candidate tip nonce (Mempool (bc st)) ts) /\
    (Hash b = calculateHash (mem st) (candidate tip nonce (Mempool (bc st)) ts) ->
     sha256_collision
       (hashInput (mem st') (candidate tip nonce (Mempool (bc st')) ts))
       (hashInput (mem st) (candidate tip nonce (Mempool (bc st)) ts))).
Proof.
  intros Hwf Hl Hb Htip. cbv zeta.
  destruct (addTransaction_pool spare sender recipient amount st Hwf) as [_ He].
  cbv zeta in He.
  assert (Hlen : len (Mempool (bc (addTransaction spare sender recipient amount st).2))
                 = S (len (Mempool (bc st)))).
  { rewrite addTransaction_unfold. cbn [snd bc Mempool]. apply append_len. }
  assert (Hc : Chain (bc (addTransaction spare sender recipient amount st).2)
               = Chain (bc st)) by apply addTransaction_Chain.
  set (st' := (addTransaction spare sender recipient amount st).2) in *.
  assert (Hl' : chain_linked (Chain (bc st'))) by now rewrite Hc.
  assert (Hb' : Z.of_nat (length (Chain (bc st'))) <= GoInt.max_int) by now rewrite Hc.
  assert (Htip' : last (Chain (bc st')) = Some tip) by now rewrite Hc.
  pose proof (hashInput_longer (mem st) (mem st') tip nonce ts _ _ _ Hlen He) as Hne.
  eexists. split; [now apply addBlock_hash_candidate|].
  cbn [Transactions Hash]. split; [exact He|]. split; [reflexivity|].
  split; [exact Hne|].
  intros E. split; [exact Hne|].
  rewrite !calculateHash_hashInput in E.
  apply EncodeToString_inj in E; [exact E | apply Sum256_bytes..].
Qed.

End LateSubmission.

(** X16: nothing ties the commit to the search.  When a transaction is
    submitted after [proofOfWork] and before [addBlock], the committed block
    holds it too, and its hash is the hash of the candidate for the enlarged
    pool, whose hash input differs from the one the nonce was mined for; the
    two hashes agree only if these inputs collide under SHA-256.  The proof
    found says nothing about the block committed. *)
Theorem late_submission_changes_block (spare : nat -> nat -> nat) (st : state)
    (nonce ts : Z) (tip : Block) (sender recipient : string)
    (amount : Float64.float64) :
  wf_slice (mem st) (Mempool (bc st)) = true ->
  chain_linked (Chain (bc st)) ->
  Z.of_nat (length (Chain (bc st))) <= GoInt.max_int ->
  last (Chain (bc st)) = Some tip ->
  let st' := (addTransaction spare sender recipient amount st).2 in
  exists b,
    last (Chain (bc (addBlock nonce ts (Hash tip) st'))) = Some b /\
    elems (mem st') (Transactions b) =
      elems (mem st) (Mempool (bc st)) ++ [submitted (sender, recipient, amount)] /\
    Hash b = calculateHash (mem st') (candidate tip nonce (Mempool (bc st')) ts) /\
    hashInput (mem st') (candidate tip nonce (Mempool (bc st')) ts) <>
    hashInput (mem st) (candidate tip nonce (Mempool (bc st)) ts) /\
    (Hash b = calculateHash (mem st) (candidate tip nonce (Mempool (bc st)) ts) ->
     sha256_collision
       (hashInput (mem st') (candidate tip nonce (Mempool (bc st')) ts))
       (hashInput (mem st) (candidate tip nonce (Mempool (bc st)) ts))).
Proof. apply late_submission. Qed.

Lemma late_submission_changes_block_witness :
  wf_slice (mem example_pool) (Mempool (bc example_pool)) = true /\
  chain_linked (Chain (bc example_pool)) /\
  Z.of_nat (length (Chain (bc example_pool))) <= GoInt.max_int /\
  last (Chain (bc example_pool)) = Some example_genesis /\
  let st' := (addTransaction doubling "Carol" "Dave" (Float64.lit 1 0) example_pool).2 in
  exists b,
    last (Chain (bc (addBlock 2 1700030657 (Hash example_genesis) st'))) = Some b /\
    elems (mem st') (Transactions b) =
      elems (mem example_pool) (Mempool (bc example_pool)) ++
      [submitted ("Carol", "Dave", Float64.lit 1 0)] /\
    Hash b = calculateHash (mem st')
               (candidate example_genesis 2 (Mempool (bc st')) 1700030657) /\
    hashInput (mem st') (candidate example_genesis 2 (Mempool (bc st')) 1700030657) <>
    hashInput (mem example_pool)
      (candidate example_genesis 2 (Mempool (bc example_pool)) 1700030657) /\
    (Hash b = calculateHash (mem example_pool)
                (candidate example_genesis 2 (Mempool (bc example_pool)) 1700030657) ->
     sha256_collision
       (hashInput (mem st') (candidate example_genesis 2 (Mempool (bc st')) 1700030657))
       (hashInput (mem example_pool)
          (candidate example_genesis 2 (Mempool (bc example_pool)) 1700030657))).
Proof.
  assert (Hwf : wf_slice (mem example_pool) (Mempool (bc example_pool)) = true)
    by (vm_compute; reflexivity).
  assert (Hl : chain_linked (Chain (bc example_pool))).
  { change (Chain (bc example_pool)) with [example_genesis].
    apply chain_linked_genesis. reflexivity. }
  assert (Hb : Z.of_nat (length (Chain (bc example_pool))) <= GoInt.max_int)
    by (vm_compute; discriminate).
  assert (Htip : last (Chain (bc example_pool)) = Some example_genesis)
    by (vm_compute; reflexivity).
  split; [exact Hwf|]. split; [exact Hl|]. split; [exact Hb|]. split; [exact Htip|].
  exact (late_submission_changes_block doubling example_pool 2 1700030657
           example_genesis "Carol" "Dave" (Float64.lit 1 0) Hwf Hl Hb Htip).
Defined.
